(** * Bill splitter: currency normalisation, rate cache and settlement engine

    A shallow embedding of [main.go]: the rate cache with its stale
    fallback ([getRates]), the JSON rate parser ([parseRateResponse]), the
    currency normaliser ([convertBillsToBase]) and the settlement engine
    ([calculate]).

    Conventions of the embedding.
    - Go's [int] is [Z]; [float64] amounts are exact rationals [Q], with
      [==] (Qeq) for numeric equality: the arithmetic of the model is exact,
      so rounding, overflow to infinity and NaN are outside it.
    - Go strings are [string]s of ASCII text; [strings.ToLower],
      [strings.ToUpper] and [strings.TrimSpace] are modelled on code points
      below 128 and leave other bytes alone.
    - Go maps are [gmap]s; a [range] over a map visits its entries in an
      unspecified order, which the model takes as a parameter.
    - [time.Time] is a count of nanoseconds in [Z]; the package-level
      [rateCache], the clock and the network form an explicit [world]. *)

From Stdlib Require Import Ascii QArith Qabs Lqa.
From stdpp Require Import gmap strings list fin_maps.

Local Open Scope Z_scope.

(** ** Strings *)

Module Strings.

Definition isUpper (c : ascii) : bool :=
  let n := N_of_ascii c in ((65 <=? n) && (n <=? 90))%N.

Definition isLower (c : ascii) : bool :=
  let n := N_of_ascii c in ((97 <=? n) && (n <=? 122))%N.

(** '\t', '\n', '\v', '\f', '\r' and ' ' *)
Definition isSpace (c : ascii) : bool :=
  let n := N_of_ascii c in (((9 <=? n) && (n <=? 13)) || (n =? 32))%N.

Definition lowerChar (c : ascii) : ascii :=
  if isUpper c then ascii_of_N (N_of_ascii c + 32) else c.

Definition upperChar (c : ascii) : ascii :=
  if isLower c then ascii_of_N (N_of_ascii c - 32) else c.

Fixpoint mapString (f : ascii -> ascii) (s : string) : string :=
  match s with
  | EmptyString => EmptyString
  | String c s' => String (f c) (mapString f s')
  end.

Definition ToLower : string -> string := mapString lowerChar.
Definition ToUpper : string -> string := mapString upperChar.

Fixpoint trimLeft (s : string) : string :=
  match s with
  | String c s' => if isSpace c then trimLeft s' else s
  | EmptyString => EmptyString
  end.

(** Drops the white space at the end: a space is kept only when something
    that is kept follows it. *)
Fixpoint trimRight (s : string) : string :=
  match s with
  | EmptyString => EmptyString
  | String c s' =>
      match trimRight s' with
      | EmptyString => if isSpace c then EmptyString else String c EmptyString
      | t => String c t
      end
  end.

Definition TrimSpace (s : string) : string := trimRight (trimLeft s).

End Strings.

Import Strings.

(** ** Data model *)

Record Person := mkPerson {
  person_ID : Z;
  person_Name : string
}.

Record Bill := mkBill {
  ID : Z;
  Title : string;
  Amount : Q;
  Category : string;
  Currency : string;
  AmountBase : Q;
  PaidBy : Z;
  Participants : list Z
}.

Record Settlement := mkSettlement {
  From : string;
  To : string;
  settlement_Amount : Q
}.

Record rateEntry := mkRateEntry {
  Rates : gmap string Q;
  Date : string;
  FetchedAt : Z
}.

(** [rateEntry{}], the zero value. *)
Definition zeroRateEntry : rateEntry :=
  {| Rates := ∅; Date := EmptyString; FetchedAt := 0 |}.

(** [bill.AmountBase = x] on a copy of the bill. *)
Definition setAmountBase (b : Bill) (x : Q) : Bill :=
  {| ID := ID b; Title := Title b; Amount := Amount b; Category := Category b;
     Currency := Currency b; AmountBase := x; PaidBy := PaidBy b;
     Participants := Participants b |}.


(** ** Settlement engine *)

Local Open Scope Q_scope.

(** The tolerance 0.01 of the partition and of the matching loop. *)
Definition epsilon : Q := 1 # 100.

(** [x < y] on amounts, as a test. *)
Definition Qltb (x y : Q) : bool := negb (Qle_bool y x).

(** [balance[k]], which reads 0 at a key the map does not have. *)
Definition balanceAt (balance : gmap Z Q) (k : Z) : Q := default 0 (balance !! k).

(** [balance[k] += v] *)
Definition addBalance (k : Z) (v : Q) (balance : gmap Z Q) : gmap Z Q :=
  <[k := balanceAt balance k + v]> balance.

(** [balance[k] -= v] *)
Definition subBalance (k : Z) (v : Q) (balance : gmap Z Q) : gmap Z Q :=
  <[k := balanceAt balance k - v]> balance.

(** [nameMap[k]], the empty string at an unknown id. *)
Definition nameAt (nameMap : gmap Z string) (k : Z) : string :=
  default EmptyString (nameMap !! k).

(** The first loop of [calculate]: a zero balance and a name per person. *)
Definition initBalance (people : list Person) : gmap Z Q :=
  foldl (fun balance person => <[person_ID person := 0]> balance) ∅ people.

Definition initNames (people : list Person) : gmap Z string :=
  foldl (fun nameMap person => <[person_ID person := person_Name person]> nameMap)
        ∅ people.

(** The amount a bill is split on: [AmountBase], or [Amount] when that is 0. *)
Definition billAmount (bill : Bill) : Q :=
  if Qeq_bool (AmountBase bill) 0 then Amount bill else AmountBase bill.

(** One round of the second loop of [calculate]. *)
Definition applyBill (balance : gmap Z Q) (bill : Bill) : gmap Z Q :=
  match Participants bill with
  | [] => balance
  | _ :: _ =>
      let amount := billAmount bill in
      let perPerson := amount / inject_Z (Z.of_nat (length (Participants bill))) in
      let balance := addBalance (PaidBy bill) amount balance in
      foldl (fun balance participantID => subBalance participantID perPerson balance)
            balance (Participants bill)
  end.

(** The balance map once every bill has been processed. *)
Definition balances (people : list Person) (bills : list Bill) : gmap Z Q :=
  foldl applyBill (initBalance people) bills.

(** A creditor or a debtor: the anonymous [struct { id int; amount float64 }]. *)
Record party := mkParty {
  party_id : Z;
  party_amount : Q
}.

(** One round of the partition loop, over the entry [(id, amt)] of the map. *)
Definition partitionStep (acc : list party * list party) (entry : Z * Q)
  : list party * list party :=
  let (creditors, debtors) := acc in
  let (id, amt) := entry in
  if Qltb epsilon amt then (creditors ++ [mkParty id amt], debtors)
  else if Qltb amt (- epsilon) then (creditors, debtors ++ [mkParty id (- amt)])
  else (creditors, debtors).

Definition partitionBalances (entries : list (Z * Q)) : list party * list party :=
  foldl partitionStep ([], []) entries.

(** The variables of the matching loop. *)
Record loopState := mkLoop {
  creditors : list party;
  debtors : list party;
  loop_i : nat;
  loop_j : nat;
  settlements : list Settlement
}.

Definition setAmount (p : party) (x : Q) : party :=
  {| party_id := party_id p; party_amount := x |}.

(** The amount of a transfer: the creditor's, or the debtor's when smaller. *)
Definition transferAmount (creditor debtor : party) : Q :=
  if Qltb (party_amount debtor) (party_amount creditor)
  then party_amount debtor else party_amount creditor.

(** One round of the matching loop; [None] when its condition
    [i < len(creditors) && j < len(debtors)] is false. *)
Definition matchStep (nameMap : gmap Z string) (st : loopState) : option loopState :=
  match creditors st !! loop_i st, debtors st !! loop_j st with
  | Some creditor, Some debtor =>
      let amount := transferAmount creditor debtor in
      let creditorLeft := party_amount creditor - amount in
      let debtorLeft := party_amount debtor - amount in
      Some {| creditors := <[loop_i st := setAmount creditor creditorLeft]> (creditors st);
              debtors := <[loop_j st := setAmount debtor debtorLeft]> (debtors st);
              loop_i := if Qltb creditorLeft epsilon then S (loop_i st) else loop_i st;
              loop_j := if Qltb debtorLeft epsilon then S (loop_j st) else loop_j st;
              settlements :=
                settlements st ++
                  [ {| From := nameAt nameMap (party_id debtor);
                       To := nameAt nameMap (party_id creditor);
                       settlement_Amount := amount |} ] |}
  | _, _ => None
  end.

(** The matching loop, run for at most [fuel] rounds: [Some] of the final
    state when the loop has left by its condition, [None] when [fuel] rounds
    did not suffice. *)
Fixpoint matchLoop (nameMap : gmap Z string) (fuel : nat) (st : loopState)
  : option loopState :=
  match matchStep nameMap st with
  | None => Some st
  | Some st' =>
      match fuel with
      | O => None
      | S fuel' => matchLoop nameMap fuel' st'
      end
  end.

Definition startLoop (parts : list party * list party) : loopState :=
  {| creditors := fst parts; debtors := snd parts;
     loop_i := 0; loop_j := 0; settlements := [] |}.

Section Calculate.

(** The order in which [for id, amt := range balance] visits the map. *)
Variable range : gmap Z Q -> list (Z * Q).

(** The creditors and the debtors [calculate] builds from the balances. *)
Definition creditorsOf (people : list Person) (bills : list Bill) : list party :=
  fst (partitionBalances (range (balances people bills))).

Definition debtorsOf (people : list Person) (bills : list Bill) : list party :=
  snd (partitionBalances (range (balances people bills))).

(** [calculate]: the settlement plan, [None] if the matching loop were
    still running after [len(creditors) + len(debtors)] rounds. *)
Definition calculate (people : list Person) (bills : list Bill)
  : option (list Settlement) :=
  let balance := balances people bills in
  let nameMap := initNames people in
  let parts := partitionBalances (range balance) in
  let fuel := (length (fst parts) + length (snd parts))%nat in
  settlements <$> matchLoop nameMap fuel (startLoop parts).

End Calculate.

(** A [range] visits every entry of the map once, in some order. *)
Definition visitsAll (range : gmap Z Q -> list (Z * Q)) : Prop :=
  forall m, range m ≡ₚ map_to_list m.


(** ** Rate source, rate cache and currency normaliser *)

Local Open Scope Z_scope.

(** The errors of the program, by the call that builds them. *)
Inductive error : Type :=
| TransportError (cause : string)      (* "匯率讀取失敗：%w", from http.Get or io.ReadAll *)
| StatusError (code : Z)               (* "匯率讀取失敗：HTTP %d" *)
| ParseError (cause : error)           (* "匯率解析失敗：%w" *)
| JsonError (msg : string)             (* an error of json.Unmarshal *)
| BaseRatesNotFound                    (* "找不到基準幣別的匯率資料" *)
| MissingRate (currency base : string) (* "缺少幣別 %s 的匯率，無法換算為 %s" *).

(** What [json.Unmarshal] does to its target: an error, the target set to
    (or left at) nil for a JSON null, or a value stored. *)
Inductive decoded (A : Type) : Type :=
| DecodeError (msg : string)
| DecodedNull
| Decoded (a : A).
Arguments DecodeError {A} msg.
Arguments DecodedNull {A}.
Arguments Decoded {A} a.

(** What the remote answers to one [http.Get]: a transport error, or a
    status code with a body that [io.ReadAll] reads or fails on. *)
Inductive httpReply : Type :=
| GetFails (cause : string)
| Responds (status : Z) (body : string + string).

(** The state around the pure code: the clock, the package-level
    [rateCache], the URLs requested so far and the remote's behaviour, as
    the reply to the n-th request. *)
Record world := mkWorld {
  clock : Z;
  rateCache : gmap string rateEntry;
  requested : list string;
  remote : nat -> string -> httpReply
}.

Definition setClock (w : world) (t : Z) : world :=
  {| clock := t; rateCache := rateCache w;
     requested := requested w; remote := remote w |}.

Definition setRateCache (w : world) (c : gmap string rateEntry) : world :=
  {| clock := clock w; rateCache := c;
     requested := requested w; remote := remote w |}.

Definition setRequested (w : world) (r : list string) : world :=
  {| clock := clock w; rateCache := rateCache w;
     requested := r; remote := remote w |}.

(** Computations over the world; [None] is a run-time panic. *)
Definition M (A : Type) : Type := world -> option (A * world).

Definition ret {A} (a : A) : M A := fun w => Some (a, w).

Definition bind {A B} (m : M A) (k : A -> M B) : M B :=
  fun w => match m w with
           | Some (a, w') => k a w'
           | None => None
           end.

Definition panic {A} : M A := fun _ => None.

Notation "x <~ m ;; k" := (bind m (fun x => k))
  (at level 100, m at next level, right associativity, only parsing).

(** [time.Now()] *)
Definition timeNow : M Z := fun w => Some (clock w, w).

(** [time.Sleep(d)] *)
Definition timeSleep (d : Z) : M unit :=
  fun w => Some (tt, setClock w (clock w + d)).

Definition cacheLookup (base : string) : M (option rateEntry) :=
  fun w => Some (rateCache w !! base, w).

Definition cacheStore (base : string) (entry : rateEntry) : M unit :=
  fun w => Some (tt, setRateCache w (<[base := entry]> (rateCache w))).

(** [http.Get(url)] followed by the reads of the response. *)
Definition httpGet (url : string) : M httpReply :=
  fun w => Some (remote w (length (requested w)) url,
                 setRequested w (requested w ++ [url])).

Definition millisecond : Z := 1000000.
Definition minute : Z := 60 * 1000 * millisecond.

(** [rateCacheTTL = 30 * time.Minute] *)
Definition rateCacheTTL : Z := 30 * minute.

Definition maxDuration : Z := 2 ^ 63 - 1.
Definition minDuration : Z := - 2 ^ 63.

(** [t.Sub(u)]: the difference as a [time.Duration], which saturates. *)
Definition timeSub (t u : Z) : Z :=
  Z.max minDuration (Z.min maxDuration (t - u)).

(** [fmt.Sprintf(exchangeAPIBase, base)] *)
Definition exchangeURL (base : string) : string :=
  ("https://cdn.jsdelivr.net/npm/@fawazahmed0/currency-api@latest/v1/currencies/"
     +:+ base +:+ ".json")%string.

Definition setFetchedAt (e : rateEntry) (t : Z) : rateEntry :=
  {| Rates := Rates e; Date := Date e; FetchedAt := t |}.

(** [encoding/json], outside the repository: what [json.Unmarshal] does
    with a byte string when its target is a [map[string]json.RawMessage], a
    [string] or a [map[string]float64]. *)
Class Unmarshal : Type := {
  unmarshalRaw : string -> decoded (gmap string string);
  unmarshalString : string -> decoded string;
  unmarshalRates : string -> decoded (gmap string Q)
}.

Section RateSource.

Context {json : Unmarshal}.

(** [parseRateResponse]; [None] is the panic of the assignment
    [rates[baseKey] = 1] into a nil map. *)
Definition parseRateResponse (base : string) (data : string)
  : option (rateEntry * option error) :=
  match unmarshalRaw data with
  | DecodeError msg => Some (zeroRateEntry, Some (JsonError msg))
  | rawResult =>
      let raw : gmap string string :=
        match rawResult with Decoded m => m | _ => ∅ end in
      let dateResult : string + string :=
        match raw !! "date"%string with
        | Some v =>
            match unmarshalString v with
            | DecodeError msg => inr msg
            | DecodedNull => inl EmptyString
            | Decoded d => inl d
            end
        | None => inl EmptyString
        end in
      match dateResult with
      | inr msg => Some (zeroRateEntry, Some (JsonError msg))
      | inl date =>
          let baseKey := ToLower base in
          match raw !! baseKey with
          | None => Some (zeroRateEntry, Some BaseRatesNotFound)
          | Some rateRaw =>
              match unmarshalRates rateRaw with
              | DecodeError msg => Some (zeroRateEntry, Some (JsonError msg))
              | DecodedNull => None
              | Decoded rates =>
                  Some ({| Rates := <[baseKey := 1%Q]> rates;
                           Date := date;
                           FetchedAt := 0 |}, None)
              end
          end
      end
  end.

Definition fetchRatesOnce (base : string) : M (rateEntry * option error) :=
  reply <~ httpGet (exchangeURL base) ;;
  match reply with
  | GetFails cause => ret (zeroRateEntry, Some (TransportError cause))
  | Responds status body =>
      if negb (status =? 200) then ret (zeroRateEntry, Some (StatusError status))
      else
        match body with
        | inr cause => ret (zeroRateEntry, Some (TransportError cause))
        | inl data =>
            match parseRateResponse base data with
            | None => panic
            | Some (_, Some err) => ret (zeroRateEntry, Some (ParseError err))
            | Some (entry, None) =>
                now <~ timeNow ;;
                ret (setFetchedAt entry now, None)
            end
        end
  end.

(** The retry loop of [fetchRates], from attempt [i] on with [n] attempts
    left; [lastErr] is nil before the first failure. *)
Fixpoint fetchAttempts (base : string) (n : nat) (i : Z)
         (lastErr : option error) : M (rateEntry * option error) :=
  match n with
  | O => ret (zeroRateEntry, lastErr)
  | S n' =>
      r <~ fetchRatesOnce base ;;
      match snd r with
      | None => ret (fst r, None)
      | Some err =>
          _ <~ timeSleep ((i + 1) * 200 * millisecond) ;;
          fetchAttempts base n' (i + 1) (Some err)
      end
  end.

Definition fetchRates (base : string) : M (rateEntry * option error) :=
  fetchAttempts base 2 0 None.

(** The cached entry, when there is one and it is younger than the TTL. *)
Definition freshEntry (now : Z) (cached : option rateEntry) : option rateEntry :=
  match cached with
  | Some entry =>
      if timeSub now (FetchedAt entry) <? rateCacheTTL then Some entry else None
  | None => None
  end.

Definition getRates (base : string) : M (rateEntry * option error) :=
  now <~ timeNow ;;
  hit <~ cacheLookup base ;;
  match freshEntry now hit with
  | Some entry => ret (entry, None)
  | None =>
      r <~ fetchRates base ;;
      match snd r with
      | Some err =>
          cached <~ cacheLookup base ;;
          match cached with
          | Some stale => ret (stale, None)
          | None => ret (zeroRateEntry, Some err)
          end
      | None =>
          _ <~ cacheStore base (fst r) ;;
          ret (fst r, None)
      end
  end.

(** The currency code of a bill: trimmed, lower-cased, the base when empty. *)
Definition resolveCurrency (baseLower : string) (bill : Bill) : string :=
  let cur := ToLower (TrimSpace (Currency bill)) in
  if decide (cur = EmptyString) then baseLower else cur.

(** One round of the loop of [convertBillsToBase]: the bill with its
    [AmountBase] written, or the error the loop returns with. *)
Definition convertBill (base : string) (rates : rateEntry) (bill : Bill)
  : Bill + error :=
  let baseLower := ToLower base in
  let cur := resolveCurrency baseLower bill in
  if decide (cur = baseLower) then inl (setAmountBase bill (Amount bill))
  else
    match Rates rates !! cur with
    | Some rate =>
        if Qeq_bool rate 0 then inr (MissingRate (ToUpper cur) (ToUpper base))
        else inl (setAmountBase bill (Amount bill / rate)%Q)
    | None => inr (MissingRate (ToUpper cur) (ToUpper base))
    end.

(** The loop of [convertBillsToBase] over the bills left, with the slice
    [converted] built so far; an error drops it. *)
Fixpoint convertLoop (base : string) (rates : rateEntry)
         (converted : list Bill) (bills : list Bill) : list Bill * option error :=
  match bills with
  | [] => (converted, None)
  | bill :: rest =>
      match convertBill base rates bill with
      | inr err => ([], Some err)
      | inl bill' => convertLoop base rates (converted ++ [bill']) rest
      end
  end.

(** [convertBillsToBase]: the converted bills, the rate date and the error. *)
Definition convertBillsToBase (base : string) (bills : list Bill)
  : M (list Bill * string * option error) :=
  r <~ getRates (ToLower base) ;;
  match snd r with
  | Some err => ret ([], Date (fst r), Some err)
  | None =>
      let rates := fst r in
      let out := convertLoop base rates [] bills in
      ret (fst out, Date rates, snd out)
  end.

End RateSource.

(** ** Sample data, from the tests of the repository *)

Definition alice : Person := mkPerson 1 "Alice".
Definition bob : Person := mkPerson 2 "Bob".
Definition charlie : Person := mkPerson 3 "Charlie".

(** A bill of [amount] in the base currency. *)
Definition baseBill (amount : Q) (paidBy : Z) (participants : list Z) : Bill :=
  {| ID := 1; Title := "Lunch"; Amount := amount; Category := EmptyString;
     Currency := EmptyString; AmountBase := amount; PaidBy := paidBy;
     Participants := participants |}.

(** The bill of the conversion test: 10 USD. *)
Definition usSnack : Bill :=
  {| ID := 1; Title := "US Snack"; Amount := 10; Category := EmptyString;
     Currency := "USD"; AmountBase := 0; PaidBy := 0; Participants := [] |}.

(** The cache entry the conversion test seeds. *)
Definition mockEntry (fetchedAt : Z) : rateEntry :=
  {| Rates := {[ "usd"%string := (1 # 10)%Q ]};
     Date := "2025-01-01"; FetchedAt := fetchedAt |}.

(** A world whose remote never answers. *)
Definition offline (now : Z) (cache : gmap string rateEntry) : world :=
  {| clock := now; rateCache := cache; requested := [];
     remote := fun _ _ => GetFails "offline" |}.

(** A decoder that rejects every input. *)
Definition noJSON : Unmarshal :=
  {| unmarshalRaw := fun _ => DecodeError "invalid character";
     unmarshalString := fun _ => DecodeError "invalid character";
     unmarshalRates := fun _ => DecodeError "invalid character" |}.

(** A decoder that knows one document, the one of the parser test, by the
    name [ratesDocument] rather than by its text: a date and the rates
    [usd], [jpy] and, to be overwritten, [twd]. *)
Definition stubJSON : Unmarshal :=
  {| unmarshalRaw := fun data =>
       if decide (data = "ratesDocument"%string)
       then Decoded {[ "date"%string := "dateField"%string;
                       "twd"%string := "ratesField"%string ]}
       else if decide (data = "emptyDocument"%string) then Decoded ∅
       else DecodeError "invalid character";
     unmarshalString := fun v =>
       if decide (v = "dateField"%string) then Decoded "2025-12-06"%string
       else DecodeError "invalid character";
     unmarshalRates := fun v =>
       if decide (v = "ratesField"%string)
       then Decoded {[ "usd"%string := (3125 # 100000)%Q;
                       "jpy"%string := (45 # 10)%Q;
                       "twd"%string := 2%Q ]}
       else DecodeError "invalid character" |}.

(** A world whose remote answers every request with the test document. *)
Definition online (now : Z) (cache : gmap string rateEntry) : world :=
  {| clock := now; rateCache := cache; requested := [];
     remote := fun _ _ => Responds 200 (inl "ratesDocument"%string) |}.

(** The world of the conversion test: a fresh table for [twd] in the cache. *)
Definition testWorld : world := offline 1000 {[ "twd"%string := mockEntry 0 ]}.

(** A bill in a currency the test table does not have. *)
Definition euroBill : Bill :=
  {| ID := 2; Title := "Dinner"; Amount := 20; Category := EmptyString;
     Currency := " eur"; AmountBase := 0; PaidBy := 1; Participants := [1; 2] |}.

(** Alice pays two cents for Bob and Charlie: one cent each. *)
Definition twoCents : Bill := baseBill (2 # 100) 1 [2; 3].

(** ** Predicates of the specification *)

(** The sum of the amounts of a list of map entries, and of a balance map. *)
Definition sumValues (entries : list (Z * Q)) : Q :=
  foldr (fun entry acc => snd entry + acc)%Q 0%Q entries.

Definition totalBalance (balance : gmap Z Q) : Q := sumValues (map_to_list balance).

(** What the partition loop makes of one entry of the balance map. *)
Definition asCreditor (entry : Z * Q) : option party :=
  if Qltb epsilon (snd entry) then Some (mkParty (fst entry) (snd entry)) else None.

Definition asDebtor (entry : Z * Q) : option party :=
  if Qltb epsilon (snd entry) then None
  else if Qltb (snd entry) (- epsilon) then Some (mkParty (fst entry) (- snd entry))
  else None.

(** The states the matching loop passes through from a given state. *)
Inductive reaches (nameMap : gmap Z string) : loopState -> loopState -> Prop :=
| reaches_here (st : loopState) : reaches nameMap st st
| reaches_round (st st' st'' : loopState) :
    matchStep nameMap st = Some st' ->
    reaches nameMap st' st'' ->
    reaches nameMap st st''.

(** What a plan transfers to, and from, the person of a given name. *)
Definition sumTo (name : string) (plan : list Settlement) : Q :=
  foldr (fun s acc => (if decide (To s = name) then settlement_Amount s else 0) + acc)%Q
        0%Q plan.

Definition sumFrom (name : string) (plan : list Settlement) : Q :=
  foldr (fun s acc => (if decide (From s = name) then settlement_Amount s else 0) + acc)%Q
        0%Q plan.

(** The totals of a plan are within 0.01 of every balance beyond 0.01:
    each creditor receives its balance and each debtor pays its own. *)
Definition settlesEveryBalance (nameMap : gmap Z string) (balance : gmap Z Q)
           (plan : list Settlement) : Prop :=
  (forall id amt, balance !! id = Some amt -> (epsilon < amt)%Q ->
     (Qabs (sumTo (nameAt nameMap id) plan - amt) <= epsilon)%Q)
  /\ (forall id amt, balance !! id = Some amt -> (amt < - epsilon)%Q ->
        (Qabs (sumFrom (nameAt nameMap id) plan - Qabs amt) <= epsilon)%Q).

(** The parties of a list have names of their own. *)
Definition distinctNames (nameMap : gmap Z string) (parties : list party) : Prop :=
  NoDup ((fun p => nameAt nameMap (party_id p)) <$> parties).

(** The bill asks for a currency other than the base that the rate table
    does not have, or has at rate zero. *)
Definition missingRate (base : string) (rates : rateEntry) (bill : Bill) : Prop :=
  let cur := resolveCurrency (ToLower base) bill in
  cur <> ToLower base
  /\ (Rates rates !! cur = None
      \/ exists rate, Rates rates !! cur = Some rate /\ (rate == 0)%Q).

(** Two bills agree on every field but [AmountBase]. *)
Definition sameButAmountBase (bill bill' : Bill) : Prop :=
  ID bill' = ID bill /\ Title bill' = Title bill /\ Amount bill' = Amount bill
  /\ Category bill' = Category bill /\ Currency bill' = Currency bill
  /\ PaidBy bill' = PaidBy bill /\ Participants bill' = Participants bill.

(** ** Invariants of the matching loop *)

Local Open Scope Q_scope.

(** The part of the loop invariant on amounts and on the number of
    transfers, for lists of [n] creditors and [m] debtors: the parties not
    yet passed have at least 0.01 left, and so has every transfer made. *)
Definition loopInv (n m : nat) (st : loopState) : Prop :=
  length (creditors st) = n
  /\ length (debtors st) = m
  /\ (forall k p, creditors st !! k = Some p -> (loop_i st <= k)%nat ->
        epsilon <= party_amount p)
  /\ (forall k p, debtors st !! k = Some p -> (loop_j st <= k)%nat ->
        epsilon <= party_amount p)
  /\ Forall (fun s => epsilon <= settlement_Amount s) (settlements st)
  /\ (length (settlements st) <= loop_i st + loop_j st)%nat
  /\ (length (settlements st) <= n + m - 1)%nat.

(** One side of the matching loop, creditors or debtors, against the list
    [list0] it started from: the ids stay, what the plan has moved for a
    party and what the party has left add up to what it started with,
    nothing left is negative, and a party the index has passed has less
    than 0.01 left. *)
Definition sideInv (nameMap : gmap Z string) (list0 list : list party)
           (idx : nat) (paid : string -> Q) : Prop :=
  party_id <$> list = party_id <$> list0
  /\ (forall k p0 p, list0 !! k = Some p0 -> list !! k = Some p ->
        paid (nameAt nameMap (party_id p0)) + party_amount p == party_amount p0)
  /\ (forall k p, list !! k = Some p -> 0 <= party_amount p)
  /\ (forall k p, list !! k = Some p -> (k < idx)%nat -> party_amount p < epsilon).

(** Both sides of the loop, against the creditors [cs0] and the debtors
    [ds0] of the partition. *)
Definition planInv (nameMap : gmap Z string) (cs0 ds0 : list party)
           (st : loopState) : Prop :=
  sideInv nameMap cs0 (creditors st) (loop_i st)
          (fun name => sumTo name (settlements st))
  /\ sideInv nameMap ds0 (debtors st) (loop_j st)
             (fun name => sumFrom name (settlements st)).

Local Close Scope Q_scope.

(** ** The request handler *)

Local Open Scope Z_scope.

(** [CalculateRequest], as [json.Unmarshal] fills it. *)
Record CalculateRequest := mkRequest {
  req_BaseCurrency : string;
  req_People : list Person;
  req_Bills : list Bill
}.

(** What the [Error] field of a response says: the fixed message of a
    request that does not decode, or the message of a conversion error. *)
Inductive failure : Type :=
| RequestUnreadable              (* "解析資料錯誤" *)
| ConversionFailed (err : error) (* err.Error() *).

(** [CalculateResponse], before [json.Marshal]; an absent [Error] is the
    empty string of the Go struct. *)
Record CalculateResponse := mkResponse {
  resp_Settlements : list Settlement;
  resp_Bills : list Bill;
  resp_BaseCurrency : string;
  resp_RateDate : string;
  resp_Error : option failure
}.

Definition defaultBase : string := "TWD".

Section Handler.

Context {json : Unmarshal}.

(** [json.Unmarshal] into a [CalculateRequest]; [None] is its error. *)
Variable unmarshalRequest : string -> option CalculateRequest.

(** The order in which [calculate] ranges over its balance map. *)
Variable range : gmap Z Q -> list (Z * Q).

(** The base currency of a request: trimmed, upper-cased, [defaultBase]
    when blank. *)
Definition resolveBase (req : CalculateRequest) : string :=
  let base := ToUpper (TrimSpace (req_BaseCurrency req)) in
  if decide (base = EmptyString) then defaultBase else base.

(** The function [main] binds as [calculateSplit], up to the encoding of
    its response; no response at all ([None]) is a panic, or a matching
    loop that would not leave. *)
Definition calculateSplit (requestJSON : string) : M CalculateResponse :=
  match unmarshalRequest requestJSON with
  | None =>
      ret {| resp_Settlements := []; resp_Bills := [];
             resp_BaseCurrency := EmptyString; resp_RateDate := EmptyString;
             resp_Error := Some RequestUnreadable |}
  | Some req =>
      let base := resolveBase req in
      r <~ convertBillsToBase base (req_Bills req) ;;
      let convertedBills := fst (fst r) in
      let rateDate := snd (fst r) in
      match snd r with
      | Some err =>
          ret {| resp_Settlements := []; resp_Bills := [];
                 resp_BaseCurrency := base; resp_RateDate := rateDate;
                 resp_Error := Some (ConversionFailed err) |}
      | None =>
          match calculate range (req_People req) convertedBills with
          | None => panic
          | Some settlements =>
              ret {| resp_Settlements := settlements;
                     resp_Bills := convertedBills;
                     resp_BaseCurrency := base; resp_RateDate := rateDate;
                     resp_Error := None |}
          end
      end
  end.

End Handler.

(** ** More sample data *)

(** The table [stubJSON] decodes from the test document for [twd]. *)
Definition testTable : rateEntry :=
  {| Rates := {[ "usd"%string := (3125 # 100000)%Q;
                 "jpy"%string := (45 # 10)%Q;
                 "twd"%string := 1%Q ]};
     Date := "2025-12-06"; FetchedAt := 0 |}.

(** The people and the bill of the first test of [calculate]. *)
Definition testPeople : list Person := [alice; bob; charlie].

Definition lunch : Bill := baseBill 300 1 [1; 2; 3].

(** An empty cache at time 5 with a remote that answers, the entry a fetch
    brings from it, and the world after [getRates] for [twd]. *)
Definition emptyOnline : world := online 5 ∅.

Definition fetchedEntry : rateEntry := setFetchedAt testTable 5.

Definition cachedWorld : world :=
  {| clock := 5; rateCache := {[ "twd"%string := fetchedEntry ]};
     requested := [exchangeURL "twd"];
     remote := fun _ _ => Responds 200 (inl "ratesDocument"%string) |}.

(** An empty cache with a remote that never answers, and the world after
    the two failed attempts of a fetch for [twd]. *)
Definition emptyOffline : world := offline 0 ∅.

Definition failedWorld : world :=
  {| clock := 600 * millisecond; rateCache := ∅;
     requested := [exchangeURL "twd"; exchangeURL "twd"];
     remote := fun _ _ => GetFails "offline" |}.

(** A request decoder that knows one request, by name: the people and the
    bill of the first test, with a blank base currency. *)
Definition stubRequest (requestJSON : string) : option CalculateRequest :=
  if decide (requestJSON = "lunchRequest"%string)
  then Some {| req_BaseCurrency := "  "; req_People := testPeople;
               req_Bills := [lunch] |}
  else None.

(** ** Quantities of the settlement engine *)

Local Open Scope Q_scope.

(** The share of a bill: what each entry of its participant list owes. *)
Definition billShare (bill : Bill) : Q :=
  billAmount bill / inject_Z (Z.of_nat (length (Participants bill))).

(** How often an id is listed among the participants. *)
Definition timesListed (k : Z) (participants : list Z) : nat :=
  length (filter (fun x => x = k) participants).

(** What a bill adds to the balance of [k]: the amount when [k] paid, less
    one share per listing of [k]; nothing for a bill without participants. *)
Definition billDelta (bill : Bill) (k : Z) : Q :=
  match Participants bill with
  | [] => 0
  | _ :: _ =>
      (if decide (k = PaidBy bill) then billAmount bill else 0)
      - inject_Z (Z.of_nat (timesListed k (Participants bill))) * billShare bill
  end.

Definition sumDeltas (bills : list Bill) (k : Z) : Q :=
  foldr (fun bill acc => billDelta bill k + acc) 0 bills.

(** The ids a bill brings into the balance map. *)
Definition billIds (bill : Bill) : gset Z :=
  match Participants bill with
  | [] => ∅
  | _ :: _ => {[ PaidBy bill ]} ∪ list_to_set (Participants bill)
  end.

(** The name of the last person listed with a given id. *)
Definition lastNamed (people : list Person) (id : Z) : option string :=
  person_Name <$> last (filter (fun p => person_ID p = id) people).

(** The amounts of a list of parties, and of a plan, added up. *)
Definition partyTotal (parties : list party) : Q :=
  foldr (fun p acc => party_amount p + acc) 0 parties.

Definition planTotal (plan : list Settlement) : Q :=
  foldr (fun s acc => settlement_Amount s + acc) 0 plan.

(** The matching loop keeps the books: what the plan has moved and what a
    side has left add up to what the side started with, nothing left is
    negative, a party that has been passed has less than 0.01 left, and no
    index is ahead of the number of transfers. *)
Definition flowInv (cs0 ds0 : list party) (st : loopState) : Prop :=
  planTotal (settlements st) + partyTotal (creditors st) == partyTotal cs0
  /\ planTotal (settlements st) + partyTotal (debtors st) == partyTotal ds0
  /\ (forall k p, creditors st !! k = Some p ->
        0 <= party_amount p /\ ((k < loop_i st)%nat -> party_amount p < epsilon))
  /\ (forall k p, debtors st !! k = Some p ->
        0 <= party_amount p /\ ((k < loop_j st)%nat -> party_amount p < epsilon))
  /\ (loop_i st <= length (settlements st))%nat
  /\ (loop_j st <= length (settlements st))%nat.

(** A party of the loop is the party of the partition at its place, with
    no more left than it started with. *)
Definition sameParty (p p0 : party) : Prop :=
  party_id p = party_id p0 /\ party_amount p <= party_amount p0.

(** A transfer goes from a debtor of the partition to a creditor of the
    partition and is no more than what either started with. *)
Definition routed (nameMap : gmap Z string) (cs0 ds0 : list party) (s : Settlement) : Prop :=
  exists c d,
    c ∈ cs0 /\ d ∈ ds0
    /\ To s = nameAt nameMap (party_id c)
    /\ From s = nameAt nameMap (party_id d)
    /\ settlement_Amount s <= party_amount c
    /\ settlement_Amount s <= party_amount d.

Definition routeInv (nameMap : gmap Z string) (cs0 ds0 : list party)
           (st : loopState) : Prop :=
  Forall2 sameParty (creditors st) cs0
  /\ Forall2 sameParty (debtors st) ds0
  /\ Forall (routed nameMap cs0 ds0) (settlements st).

Local Close Scope Q_scope.

(** Every cached table has rate 1 at the base it is cached under. *)
Definition cacheHasBaseRates (cache : gmap string rateEntry) : Prop :=
  forall base entry,
    cache !! base = Some entry -> Rates entry !! ToLower base = Some 1%Q.

(** * Properties *)

(** ** The tests of the repository, on the model *)

Example trim_lower_example : ToLower (TrimSpace "  USD "%string) = "usd"%string.
Proof. reflexivity. Qed.

Example calculate_case1 :
  calculate map_to_list [alice; bob; charlie] [baseBill 300 1 [1; 2; 3]]
  = Some [ mkSettlement "Charlie" "Alice" (300 # 3);
           mkSettlement "Bob" "Alice" (900 # 9) ].
Proof. vm_compute. reflexivity. Qed.

Example calculate_case2 :
  calculate map_to_list [alice; bob; charlie]
            [baseBill 300 1 [1; 2; 3]; baseBill 150 2 [1; 2; 3]]
  = Some [ mkSettlement "Charlie" "Alice" (1350 # 9) ].
Proof. vm_compute. reflexivity. Qed.

Example calculate_case3 :
  calculate map_to_list [mkPerson 1 "A"; mkPerson 2 "B"] [] = Some [].
Proof. vm_compute. reflexivity. Qed.

(** ** Comparisons on amounts *)

Lemma Qltb_lt (x y : Q) : Qltb x y = true <-> (x < y)%Q.
Proof.
  unfold Qltb. rewrite negb_true_iff. split.
  - intros H. apply Qnot_le_lt. intros Hle.
    apply Qle_bool_iff in Hle. congruence.
  - intros H. destruct (Qle_bool y x) eqn:E; [|reflexivity].
    apply Qle_bool_iff in E. exfalso. apply (Qlt_not_le _ _ H E).
Qed.

Lemma Qltb_ge (x y : Q) : Qltb x y = false <-> (y <= x)%Q.
Proof.
  unfold Qltb. rewrite negb_false_iff. apply Qle_bool_iff.
Qed.

(** ** Bills without participants *)

Lemma applyBill_no_participants (balance : gmap Z Q) (bill : Bill) :
  Participants bill = [] -> applyBill balance bill = balance.
Proof. intros H. unfold applyBill. rewrite H. reflexivity. Qed.

Lemma balances_app (people : list Person) (bills1 bills2 : list Bill) :
  balances people (bills1 ++ bills2)
  = foldl applyBill (balances people bills1) bills2.
Proof. unfold balances. apply foldl_app. Qed.

(** C2. A bill with an empty participant list changes no balance, the
    payer's included: the balance map after it is the map before it, and
    the balances and the settlement plan of a bill list are those of the
    list without that bill. *)
Theorem empty_bill_no_effect
  (range : gmap Z Q -> list (Z * Q)) (people : list Person)
  (bills1 bills2 : list Bill) (bill : Bill) (balance : gmap Z Q) :
  Participants bill = [] ->
  applyBill balance bill = balance
  /\ balances people (bills1 ++ bill :: bills2) = balances people (bills1 ++ bills2)
  /\ calculate range people (bills1 ++ bill :: bills2)
     = calculate range people (bills1 ++ bills2).
Proof.
  intros Hnil.
  assert (Hbal : balances people (bills1 ++ bill :: bills2)
                 = balances people (bills1 ++ bills2)).
  { rewrite !balances_app. simpl.
    rewrite (applyBill_no_participants _ _ Hnil). reflexivity. }
  split; [apply applyBill_no_participants; exact Hnil|].
  split; [exact Hbal|].
  unfold calculate. rewrite Hbal. reflexivity.
Qed.

Lemma empty_bill_no_effect_witness :
  applyBill (balances [alice; bob] []) (baseBill 90 1 []) = balances [alice; bob] []
  /\ balances [alice; bob] ([baseBill 50 2 [1; 2]] ++ baseBill 90 1 [] :: [])
     = balances [alice; bob] ([baseBill 50 2 [1; 2]] ++ [])
  /\ calculate map_to_list [alice; bob] ([baseBill 50 2 [1; 2]] ++ baseBill 90 1 [] :: [])
     = calculate map_to_list [alice; bob] ([baseBill 50 2 [1; 2]] ++ []).
Proof.
  apply (empty_bill_no_effect map_to_list [alice; bob] [baseBill 50 2 [1; 2]] []
                              (baseBill 90 1 []) (balances [alice; bob] [])).
  reflexivity.
Defined.

(** ** The currency normaliser *)

Section Normaliser.

Context {json : Unmarshal}.

Lemma convertBill_cases (base : string) (rates : rateEntry) (bill : Bill) :
  let cur := resolveCurrency (ToLower base) bill in
  (~ missingRate base rates bill
   /\ ((cur = ToLower base
        /\ convertBill base rates bill = inl (setAmountBase bill (Amount bill)))
       \/ (cur <> ToLower base
           /\ exists rate, Rates rates !! cur = Some rate /\ ~ (rate == 0)%Q
              /\ convertBill base rates bill
                 = inl (setAmountBase bill (Amount bill / rate)%Q))))
  \/ (missingRate base rates bill
      /\ convertBill base rates bill
         = inr (MissingRate (ToUpper cur) (ToUpper base))).
Proof.
  intros cur. unfold convertBill, missingRate. fold cur.
  destruct (decide (cur = ToLower base)) as [Heq|Hne].
  - left. split; [intros [Hc _]; contradiction|]. left. auto.
  - destruct (Rates rates !! cur) as [rate|] eqn:Hrate.
    + destruct (Qeq_bool rate 0) eqn:Hz.
      * right. split; [|reflexivity]. split; [exact Hne|].
        right. exists rate. split; [reflexivity|]. apply Qeq_bool_iff, Hz.
      * left. split.
        { intros [_ [Hnone|(r & Hr & Hr0)]]; [discriminate|].
          injection Hr as <-. apply Qeq_bool_iff in Hr0. congruence. }
        right. split; [exact Hne|]. exists rate. split; [reflexivity|].
        split; [|reflexivity].
        intros H0. apply Qeq_bool_iff in H0. congruence.
    + right. split; [|reflexivity]. split; [exact Hne|]. left. reflexivity.
Qed.

Lemma convertBill_frame (base : string) (rates : rateEntry) (bill bill' : Bill) :
  convertBill base rates bill = inl bill' -> sameButAmountBase bill bill'.
Proof.
  intros H.
  destruct (convertBill_cases base rates bill)
    as [[_ [[_ E]|(_ & rate & _ & _ & E)]]|[_ E]];
    rewrite E in H; try discriminate;
    injection H as <-; repeat split.
Qed.

(** A run of the loop without error converts the bills one by one, in order. *)
Lemma convertLoop_ok (base : string) (rates : rateEntry) (bills : list Bill) :
  forall acc out,
    convertLoop base rates acc bills = (out, None) ->
    exists conv, out = acc ++ conv
      /\ Forall2 (fun bill bill' => convertBill base rates bill = inl bill') bills conv.
Proof.
  induction bills as [|bill rest IH]; intros acc out H; simpl in H.
  - injection H as <-. exists []. rewrite app_nil_r. split; [reflexivity|constructor].
  - destruct (convertBill base rates bill) as [bill'|err] eqn:E; [|discriminate].
    destruct (IH _ _ H) as (conv & -> & Hall).
    exists (bill' :: conv). rewrite <- app_assoc. split; [reflexivity|].
    constructor; assumption.
Qed.

(** The loop stops at the first bill whose rate is missing. *)
Lemma convertLoop_missing (base : string) (rates : rateEntry)
      (pre post : list Bill) (bill : Bill) :
  Forall (fun b => ~ missingRate base rates b) pre ->
  missingRate base rates bill ->
  forall acc,
    convertLoop base rates acc (pre ++ bill :: post)
    = ([], Some (MissingRate (ToUpper (resolveCurrency (ToLower base) bill))
                             (ToUpper base))).
Proof.
  intros Hpre Hbill. induction Hpre as [|b pre Hb _ IH]; intros acc; simpl.
  - destruct (convertBill_cases base rates bill) as [[Hn _]|[_ E]];
      [contradiction|]. rewrite E. reflexivity.
  - destruct (convertBill_cases base rates b)
      as [[_ [[_ E]|(_ & rate & _ & _ & E)]]|[Hm _]];
      [rewrite E; apply IH | rewrite E; apply IH | contradiction].
Qed.

Lemma first_missing (base : string) (rates : rateEntry) (bills : list Bill) :
  Exists (missingRate base rates) bills ->
  exists pre bill post,
    bills = pre ++ bill :: post
    /\ Forall (fun b => ~ missingRate base rates b) pre
    /\ missingRate base rates bill.
Proof.
  induction 1 as [b rest Hb|b rest _ IH].
  - exists [], b, rest. split; [reflexivity|]. split; [constructor|exact Hb].
  - destruct (convertBill_cases base rates b) as [[Hn _]|[Hm _]].
    + destruct IH as (pre & bill & post & -> & Hpre & Hbill).
      exists (b :: pre), bill, post. split; [reflexivity|].
      split; [constructor; assumption|exact Hbill].
    + exists [], b, rest. split; [reflexivity|]. split; [constructor|exact Hm].
Qed.

(** [convertBillsToBase] once [getRates] has given a table. *)
Lemma convertBillsToBase_with_rates
      (base : string) (bills : list Bill) (w w1 : world) (rates : rateEntry) :
  getRates (ToLower base) w = Some ((rates, None), w1) ->
  convertBillsToBase base bills w
  = Some ((fst (convertLoop base rates [] bills), Date rates,
           snd (convertLoop base rates [] bills)), w1).
Proof.
  intros H. unfold convertBillsToBase, bind. rewrite H. reflexivity.
Qed.

(** A successful [convertBillsToBase] had a table and a loop without error. *)
Lemma convertBillsToBase_success
      (base : string) (bills converted : list Bill) (date : string) (w w' : world) :
  convertBillsToBase base bills w = Some ((converted, date, None), w') ->
  exists rates,
    getRates (ToLower base) w = Some ((rates, None), w')
    /\ date = Date rates
    /\ convertLoop base rates [] bills = (converted, None).
Proof.
  unfold convertBillsToBase, bind. intros H.
  destruct (getRates (ToLower base) w) as [[[rates [err|]] w1]|];
    simpl in H; try discriminate.
  unfold ret in H. injection H as H1 H2 H3 H4. subst.
  exists rates. repeat split.
  destruct (convertLoop base rates [] bills) as [out e]. simpl in *. congruence.
Qed.



(** C10. On success, [convertBillsToBase] returns as many bills as it was
    given, in the same order, and each one is the input bill in every field
    ([ID], [Title], [Amount], [Category], [Currency], [PaidBy],
    [Participants]) but [AmountBase]. *)
Theorem convert_frame
  (base : string) (bills converted : list Bill) (date : string) (w w' : world) :
  convertBillsToBase base bills w = Some ((converted, date, None), w') ->
  length converted = length bills
  /\ forall k bill, bills !! k = Some bill ->
       exists bill', converted !! k = Some bill' /\ sameButAmountBase bill bill'.
Proof.
  intros Hconv.
  destruct (convertBillsToBase_success _ _ _ _ _ _ Hconv) as (rates & _ & _ & Hloop).
  destruct (convertLoop_ok _ _ _ _ _ Hloop) as (conv & -> & Hall). simpl.
  split; [symmetry; eapply Forall2_length; exact Hall|].
  intros k bill Hk.
  destruct (Forall2_lookup_l _ _ _ _ _ Hall Hk) as (bill' & Hk' & Hbill).
  exists bill'. split; [exact Hk'|]. eapply convertBill_frame, Hbill.
Qed.

End Normaliser.

Lemma testWorld_rates :
  getRates (json := noJSON) (ToLower "TWD") testWorld
  = Some ((mockEntry 0, None), testWorld).
Proof. vm_compute. reflexivity. Qed.



Example missing_rate_names_EUR :
  convertBillsToBase (json := noJSON) "TWD" [usSnack; euroBill] testWorld
  = Some (([], "2025-01-01"%string, Some (MissingRate "EUR" "TWD")), testWorld).
Proof. vm_compute. reflexivity. Qed.

Lemma convert_frame_witness :
  length [setAmountBase usSnack (10 / (1 # 10))%Q] = length [usSnack]
  /\ forall k bill, [usSnack] !! k = Some bill ->
       exists bill', [setAmountBase usSnack (10 / (1 # 10))%Q] !! k = Some bill'
                     /\ sameButAmountBase bill bill'.
Proof.
  apply (convert_frame (json := noJSON) "TWD" [usSnack]
           [setAmountBase usSnack (10 / (1 # 10))%Q] "2025-01-01"
           testWorld testWorld).
  vm_compute. reflexivity.
Defined.

(** ** The rate source and the rate cache *)

Section RateCache.

Context {json : Unmarshal}.

(** The saturation of [Sub] does not move an age across the TTL. *)
Lemma timeSub_fresh (t u : Z) :
  (timeSub t u <? rateCacheTTL) = true <-> t - u < rateCacheTTL.
Proof.
  rewrite Z.ltb_lt.
  unfold timeSub, maxDuration, minDuration, rateCacheTTL, minute, millisecond.
  change (2 ^ 63) with 9223372036854775808. lia.
Qed.

Lemma freshEntry_fresh (now : Z) (entry : rateEntry) :
  now - FetchedAt entry < rateCacheTTL -> freshEntry now (Some entry) = Some entry.
Proof.
  intros H. unfold freshEntry.
  destruct (timeSub now (FetchedAt entry) <? rateCacheTTL) eqn:E; [reflexivity|].
  apply timeSub_fresh in H. congruence.
Qed.

Lemma freshEntry_stale (now : Z) (entry : rateEntry) :
  rateCacheTTL <= now - FetchedAt entry -> freshEntry now (Some entry) = None.
Proof.
  intros H. unfold freshEntry.
  destruct (timeSub now (FetchedAt entry) <? rateCacheTTL) eqn:E; [|reflexivity].
  apply timeSub_fresh in E. lia.
Qed.

(** One attempt issues one request and leaves the cache alone. *)
Lemma fetchRatesOnce_world (base : string) (w w' : world) (r : rateEntry * option error) :
  fetchRatesOnce base w = Some (r, w') ->
  rateCache w' = rateCache w
  /\ requested w' = requested w ++ [exchangeURL base].
Proof.
  unfold fetchRatesOnce, bind, httpGet. simpl.
  destruct (remote w (length (requested w)) (exchangeURL base)) as [cause|status body].
  - intros [= <- <-]. auto.
  - destruct (negb (status =? 200)); [intros [= <- <-]; auto|].
    destruct body as [data|cause]; [|intros [= <- <-]; auto].
    destruct (parseRateResponse base data) as [[entry [err|]]|];
      [intros [= <- <-]; auto | intros [= <- <-]; auto | discriminate].
Qed.

Lemma fetchAttempts_world (base : string) (n : nat) :
  forall (i : Z) (lastErr : option error) (w w' : world) (r : rateEntry * option error),
    fetchAttempts base n i lastErr w = Some (r, w') ->
    rateCache w' = rateCache w
    /\ (length (requested w) <= length (requested w'))%nat
    /\ (n <> O -> (length (requested w) < length (requested w'))%nat).
Proof.
  induction n as [|n IH]; intros i lastErr w w' r; simpl.
  - intros [= <- <-]. split; [reflexivity|]. split; [lia|]. intros H; congruence.
  - unfold bind at 1.
    destruct (fetchRatesOnce base w) as [[r1 w1]|] eqn:E1; [|discriminate].
    destruct (fetchRatesOnce_world _ _ _ _ E1) as [Hc Hr].
    assert (Hlen : length (requested w1) = S (length (requested w)))
      by (rewrite Hr, length_app; simpl; lia).
    destruct (snd r1) as [err|].
    + unfold bind, timeSleep. intros H. apply IH in H.
      destruct H as (Hc' & Hle & _). simpl in *.
      split; [congruence|]. split; [lia|]. intros _. lia.
    + intros [= <- <-]. split; [exact Hc|]. split; [lia|]. intros _. lia.
Qed.

(** A fetch leaves the cache alone and issues at least one request. *)
Lemma fetchRates_world (base : string) (w w' : world) (r : rateEntry * option error) :
  fetchRates base w = Some (r, w') ->
  rateCache w' = rateCache w
  /\ (length (requested w) < length (requested w'))%nat.
Proof.
  intros H. destruct (fetchAttempts_world _ _ _ _ _ _ _ H) as (Hc & _ & Hlt).
  split; [exact Hc|]. apply Hlt. discriminate.
Qed.

(** [getRates] when the cache has no entry younger than the TTL. *)
Lemma getRates_refresh (base : string) (w w' : world) (r : rateEntry * option error) :
  freshEntry (clock w) (rateCache w !! base) = None ->
  fetchRates base w = Some (r, w') ->
  getRates base w
  = match snd r with
    | Some err =>
        match rateCache w !! base with
        | Some stale => Some ((stale, None), w')
        | None => Some ((zeroRateEntry, Some err), w')
        end
    | None =>
        Some ((fst r, None), setRateCache w' (<[base := fst r]> (rateCache w)))
    end.
Proof.
  intros Hstale Hfetch.
  destruct (fetchRates_world _ _ _ _ Hfetch) as [Hc _].
  unfold getRates, bind, timeNow, cacheLookup. rewrite Hstale, Hfetch.
  destruct (snd r) as [err|].
  - rewrite Hc. destruct (rateCache w !! base); reflexivity.
  - unfold cacheStore, ret. rewrite Hc. reflexivity.
Qed.


(** C8. A rate table that [parseRateResponse] returns without error maps
    the lower-cased base code to exactly 1, whatever the response had
    there; and when the decoded JSON object has no entry at the lower-cased
    base code, [parseRateResponse] returns an error: the one of the missing
    base rates, or the one of a [date] that does not decode. *)
Theorem parse_base_rate (base data : string) :
  (forall entry,
      parseRateResponse base data = Some (entry, None) ->
      Rates entry !! ToLower base = Some 1%Q)
  /\ (forall raw,
        unmarshalRaw data = Decoded raw ->
        raw !! ToLower base = None ->
        exists err,
          parseRateResponse base data = Some (zeroRateEntry, Some err)
          /\ (err = BaseRatesNotFound \/ exists msg, err = JsonError msg)).
Proof.
  split.
  - intros entry. unfold parseRateResponse.
    destruct (unmarshalRaw data) as [msg| |raw]; [discriminate| |].
    + rewrite !lookup_empty. discriminate.
    + destruct (raw !! "date"%string) as [v|];
        [destruct (unmarshalString v) as [msg| |d]|]; try discriminate;
        (destruct (raw !! ToLower base) as [rateRaw|]; [|discriminate];
         destruct (unmarshalRates rateRaw) as [msg| |rates]; try discriminate;
         intros [= <-]; simpl; apply lookup_insert_eq).
  - intros raw Hraw Hbase. unfold parseRateResponse. rewrite Hraw, Hbase.
    destruct (raw !! "date"%string) as [v|];
      [destruct (unmarshalString v) as [msg| |d]|]; eauto.
Qed.

End RateCache.


Lemma parse_base_rate_witness :
  Rates {| Rates := {[ "usd"%string := (3125 # 100000)%Q;
                       "jpy"%string := (45 # 10)%Q;
                       "twd"%string := 1%Q ]};
           Date := "2025-12-06"; FetchedAt := 0 |} !! ToLower "TWD" = Some 1%Q.
Proof.
  apply (proj1 (parse_base_rate (json := stubJSON) "TWD" "ratesDocument")).
  vm_compute. reflexivity.
Defined.

Example parse_test_document :
  parseRateResponse (json := stubJSON) "TWD" "ratesDocument"
  = Some ({| Rates := {[ "usd"%string := (3125 # 100000)%Q;
                         "jpy"%string := (45 # 10)%Q;
                         "twd"%string := 1%Q ]};
             Date := "2025-12-06"; FetchedAt := 0 |}, None).
Proof. vm_compute. reflexivity. Qed.

Example parse_without_base :
  parseRateResponse (json := stubJSON) "TWD" "emptyDocument"
  = Some (zeroRateEntry, Some BaseRatesNotFound).
Proof. vm_compute. reflexivity. Qed.

(** A stale entry and a remote that answers: the fresh table is cached. *)
Example getRates_refreshes :
  exists fresh w',
    getRates (json := stubJSON) "twd" (online (31 * minute) {[ "twd"%string := mockEntry 0 ]})
    = Some ((fresh, None), w')
    /\ rateCache w' !! "twd"%string = Some fresh
    /\ Date fresh = "2025-12-06"%string
    /\ FetchedAt fresh = 31 * minute.
Proof. do 2 eexists. split; [vm_compute; reflexivity|]. vm_compute. auto. Qed.

(** A stale entry and a remote that fails: the stale table, and no error. *)
Example getRates_falls_back :
  exists w',
    getRates (json := stubJSON) "twd" (offline (31 * minute) {[ "twd"%string := mockEntry 0 ]})
    = Some ((mockEntry 0, None), w')
    /\ length (requested w') = 2%nat.
Proof. eexists. split; [vm_compute; reflexivity|]. reflexivity. Qed.

(** No entry and a remote that fails: the error of the second attempt. *)
Example getRates_propagates :
  exists w',
    getRates (json := stubJSON) "twd" (offline 0 ∅)
    = Some ((zeroRateEntry, Some (TransportError "offline")), w').
Proof. eexists. vm_compute. reflexivity. Qed.

(** ** Balances *)

Section Balances.

Local Open Scope Q_scope.

Lemma sumValues_perm (l l' : list (Z * Q)) :
  l ≡ₚ l' -> sumValues l == sumValues l'.
Proof.
  induction 1 as [|e l l' _ IH|e1 e2 l|l1 l2 l3 _ IH1 _ IH2]; simpl.
  - reflexivity.
  - rewrite IH. reflexivity.
  - ring.
  - rewrite IH1. exact IH2.
Qed.

(** Writing [v] at [k] moves the total by [v] minus what [k] had. *)
Lemma totalBalance_insert (k : Z) (v : Q) (m : gmap Z Q) :
  totalBalance (<[k := v]> m) == totalBalance m - balanceAt m k + v.
Proof.
  unfold totalBalance, balanceAt.
  destruct (m !! k) as [old|] eqn:E; simpl.
  - rewrite <- (sumValues_perm _ _ (map_to_list_delete m k old E)).
    rewrite <- insert_delete_eq.
    rewrite (sumValues_perm _ _ (map_to_list_insert (delete k m) k v
                                   (lookup_delete_eq m k))).
    simpl. ring.
  - rewrite (sumValues_perm _ _ (map_to_list_insert m k v E)). simpl. ring.
Qed.

Lemma totalBalance_add (k : Z) (v : Q) (m : gmap Z Q) :
  totalBalance (addBalance k v m) == totalBalance m + v.
Proof. unfold addBalance. rewrite totalBalance_insert. ring. Qed.

Lemma totalBalance_sub (k : Z) (v : Q) (m : gmap Z Q) :
  totalBalance (subBalance k v m) == totalBalance m - v.
Proof. unfold subBalance. rewrite totalBalance_insert. ring. Qed.

(** The debits of a bill: one share per entry of the participant list. *)
Lemma totalBalance_debits (share : Q) (participants : list Z) :
  forall m,
    totalBalance (foldl (fun balance participantID =>
                           subBalance participantID share balance) m participants)
    == totalBalance m - inject_Z (Z.of_nat (length participants)) * share.
Proof.
  induction participants as [|p rest IH]; intros m.
  - simpl. ring.
  - cbn [foldl]. rewrite IH, totalBalance_sub.
    change (length (p :: rest)) with (S (length rest)).
    rewrite Nat2Z.inj_succ. unfold Z.succ. rewrite inject_Z_plus. ring.
Qed.

(** A bill leaves the total where it was. *)
Lemma totalBalance_applyBill (m : gmap Z Q) (bill : Bill) :
  totalBalance (applyBill m bill) == totalBalance m.
Proof.
  unfold applyBill. destruct (Participants bill) as [|p rest] eqn:E.
  - reflexivity.
  - rewrite totalBalance_debits, totalBalance_add.
    set (n := inject_Z (Z.of_nat (length (p :: rest)))).
    assert (Hn : ~ n == 0).
    { unfold n. change 0 with (inject_Z 0). rewrite inject_Z_injective.
      simpl. lia. }
    field. exact Hn.
Qed.

Lemma initBalance_zero (people : list Person) :
  forall k v, initBalance people !! k = Some v -> v = 0.
Proof.
  unfold initBalance.
  assert (H : forall (m : gmap Z Q),
             (forall k v, m !! k = Some v -> v = 0) ->
             forall k v,
               foldl (fun balance person => <[person_ID person := 0]> balance)
                     m people !! k = Some v -> v = 0).
  { induction people as [|p rest IH]; intros m Hm; [exact Hm|].
    simpl. apply IH. intros k v.
    rewrite lookup_insert. case_decide; [congruence|apply Hm]. }
  apply H. intros k v. rewrite lookup_empty. discriminate.
Qed.

Lemma totalBalance_init (people : list Person) :
  totalBalance (initBalance people) == 0.
Proof.
  unfold totalBalance.
  assert (H : forall l : list (Z * Q),
             (forall e, e ∈ l -> snd e = 0) -> sumValues l == 0).
  { induction l as [|e l IH]; intros Hl; simpl; [reflexivity|].
    rewrite (Hl e), IH; [ring| |left].
    intros e' He'. apply Hl. right. exact He'. }
  apply H. intros [k v] He. apply elem_of_map_to_list in He.
  exact (initBalance_zero _ _ _ He).
Qed.

(** C4. Once [calculate] has processed the bills, the balances of all ids
    in the map (the people, and the payers and participants the bills
    bring in) add up to zero, in the exact arithmetic of the model: what a
    bill credits to its payer is what its equal shares debit. The same
    holds of the entries in whatever order the partition loop visits them. *)
Theorem balances_sum_zero (people : list Person) (bills : list Bill) :
  totalBalance (balances people bills) == 0
  /\ forall range, visitsAll range ->
       sumValues (range (balances people bills)) == 0.
Proof.
  assert (H : totalBalance (balances people bills) == 0).
  { unfold balances. rewrite <- (totalBalance_init people).
    generalize (initBalance people).
    induction bills as [|bill rest IH]; intros m; simpl; [reflexivity|].
    rewrite IH. apply totalBalance_applyBill. }
  split; [exact H|].
  intros range Hrange. rewrite (sumValues_perm _ _ (Hrange _)). exact H.
Qed.

End Balances.

(** ** The matching loop *)

Section MatchingLoop.

Local Open Scope Q_scope.

Variable nameMap : gmap Z string.

Lemma transferAmount_cases (creditor debtor : party) :
  (transferAmount creditor debtor = party_amount debtor
   /\ party_amount debtor < party_amount creditor)
  \/ (transferAmount creditor debtor = party_amount creditor
      /\ party_amount creditor <= party_amount debtor).
Proof.
  unfold transferAmount.
  destruct (Qltb (party_amount debtor) (party_amount creditor)) eqn:E.
  - left. split; [reflexivity|]. apply Qltb_lt, E.
  - right. split; [reflexivity|]. apply Qltb_ge, E.
Qed.

(** A round, spelled out. *)
Lemma matchStep_inv (st st' : loopState) :
  matchStep nameMap st = Some st' ->
  exists creditor debtor,
    creditors st !! loop_i st = Some creditor
    /\ debtors st !! loop_j st = Some debtor
    /\ creditors st'
       = <[loop_i st := setAmount creditor
             (party_amount creditor - transferAmount creditor debtor)]> (creditors st)
    /\ debtors st'
       = <[loop_j st := setAmount debtor
             (party_amount debtor - transferAmount creditor debtor)]> (debtors st)
    /\ loop_i st'
       = (if Qltb (party_amount creditor - transferAmount creditor debtor) epsilon
          then S (loop_i st) else loop_i st)
    /\ loop_j st'
       = (if Qltb (party_amount debtor - transferAmount creditor debtor) epsilon
          then S (loop_j st) else loop_j st)
    /\ settlements st'
       = settlements st ++
           [ {| From := nameAt nameMap (party_id debtor);
                To := nameAt nameMap (party_id creditor);
                settlement_Amount := transferAmount creditor debtor |} ].
Proof.
  unfold matchStep.
  destruct (creditors st !! loop_i st) as [creditor|]; [|discriminate].
  destruct (debtors st !! loop_j st) as [debtor|]; [|discriminate].
  intros [= <-]. exists creditor, debtor. simpl. repeat split.
Qed.

(** The loop has left: one of the two lists is used up. *)
Lemma matchStep_None (st : loopState) :
  matchStep nameMap st = None ->
  (length (creditors st) <= loop_i st)%nat \/ (length (debtors st) <= loop_j st)%nat.
Proof.
  unfold matchStep.
  destruct (creditors st !! loop_i st) as [creditor|] eqn:Ec.
  - destruct (debtors st !! loop_j st) as [debtor|] eqn:Ed; [discriminate|].
    intros _. right. apply lookup_ge_None, Ed.
  - intros _. left. apply lookup_ge_None, Ec.
Qed.

(** Every round moves past the creditor, past the debtor, or past both. *)
Lemma matchStep_progress (st st' : loopState) :
  matchStep nameMap st = Some st' ->
  length (creditors st') = length (creditors st)
  /\ length (debtors st') = length (debtors st)
  /\ (loop_i st < length (creditors st))%nat
  /\ (loop_j st < length (debtors st))%nat
  /\ (loop_i st <= loop_i st' <= S (loop_i st))%nat
  /\ (loop_j st <= loop_j st' <= S (loop_j st))%nat
  /\ (loop_i st + loop_j st < loop_i st' + loop_j st')%nat
  /\ length (settlements st') = S (length (settlements st)).
Proof.
  intros H. destruct (matchStep_inv _ _ H)
    as (c & d & Hc & Hd & -> & -> & Hi & Hj & ->).
  rewrite !length_insert, length_app. simpl.
  apply lookup_lt_Some in Hc as Hci. apply lookup_lt_Some in Hd as Hdj.
  rewrite Hi, Hj.
  assert (Hadv : Qltb (party_amount c - transferAmount c d) epsilon = true
                 \/ Qltb (party_amount d - transferAmount c d) epsilon = true).
  { destruct (transferAmount_cases c d) as [[-> _]|[-> _]];
      [right|left]; apply Qltb_lt; unfold epsilon; lra. }
  destruct (Qltb (party_amount c - transferAmount c d) epsilon),
           (Qltb (party_amount d - transferAmount c d) epsilon);
    repeat split; try lia; destruct Hadv; discriminate.
Qed.

(** A run of the loop that ends has reached a state where the loop leaves. *)
Lemma matchLoop_reaches (fuel : nat) :
  forall st st',
    matchLoop nameMap fuel st = Some st' ->
    reaches nameMap st st' /\ matchStep nameMap st' = None.
Proof.
  induction fuel as [|fuel IH]; intros st st'; simpl;
    destruct (matchStep nameMap st) as [st1|] eqn:E.
  - discriminate.
  - intros [= <-]. split; [constructor|exact E].
  - intros H. destruct (IH _ _ H) as [Hr Hn].
    split; [econstructor; eassumption|exact Hn].
  - intros [= <-]. split; [constructor|exact E].
Qed.

(** The loop leaves within as many rounds as there are parties not yet
    passed. *)
Lemma matchLoop_terminates (fuel : nat) :
  forall st,
    ((length (creditors st) - loop_i st) + (length (debtors st) - loop_j st)
     <= fuel)%nat ->
    exists st', matchLoop nameMap fuel st = Some st'.
Proof.
  induction fuel as [|fuel IH]; intros st Hfuel; simpl;
    destruct (matchStep nameMap st) as [st1|] eqn:E; eauto.
  - apply matchStep_progress in E. lia.
  - apply IH. apply matchStep_progress in E. lia.
Qed.

(** More fuel than the loop needs changes nothing. *)
Lemma matchLoop_more_fuel (fuel : nat) :
  forall st st' fuel',
    matchLoop nameMap fuel st = Some st' ->
    (fuel <= fuel')%nat ->
    matchLoop nameMap fuel' st = Some st'.
Proof.
  induction fuel as [|fuel IH]; intros st st' fuel'; simpl;
    destruct (matchStep nameMap st) as [st1|] eqn:E.
  - discriminate.
  - intros [= <-] _. destruct fuel'; simpl; rewrite E; reflexivity.
  - intros H Hle. destruct fuel' as [|fuel']; [lia|]. simpl. rewrite E.
    apply IH; [exact H|lia].
  - intros [= <-] _. destruct fuel'; simpl; rewrite E; reflexivity.
Qed.

(** What holds at the start and is kept by every round holds throughout. *)
Lemma reaches_invariant (P : loopState -> Prop) :
  (forall st st', P st -> matchStep nameMap st = Some st' -> P st') ->
  forall st st', reaches nameMap st st' -> P st -> P st'.
Proof.
  intros Hstep st st' Hr. induction Hr as [|st st1 st2 E _ IH]; [auto|].
  intros HP. apply IH. eapply Hstep; eassumption.
Qed.

(** The partition keeps, in the order of the visit, the entries above
    0.01 as creditors and the entries below -0.01 as debtors. *)
Lemma partition_omap (entries : list (Z * Q)) :
  forall cs ds,
    foldl partitionStep (cs, ds) entries
    = (cs ++ omap asCreditor entries, ds ++ omap asDebtor entries).
Proof.
  induction entries as [|[id amt] rest IH]; intros cs ds.
  - simpl. rewrite !app_nil_r. reflexivity.
  - cbn [foldl].
    change (omap asCreditor ((id, amt) :: rest))
      with (match asCreditor (id, amt) with
            | Some y => y :: omap asCreditor rest
            | None => omap asCreditor rest
            end).
    change (omap asDebtor ((id, amt) :: rest))
      with (match asDebtor (id, amt) with
            | Some y => y :: omap asDebtor rest
            | None => omap asDebtor rest
            end).
    unfold partitionStep at 2, asCreditor at 1, asDebtor at 1. cbn [fst snd].
    destruct (Qltb epsilon amt); [|destruct (Qltb amt (- epsilon))];
      rewrite IH, <- ?app_assoc; reflexivity.
Qed.

Lemma partition_creditors (entries : list (Z * Q)) :
  fst (partitionBalances entries) = omap asCreditor entries.
Proof. unfold partitionBalances. rewrite partition_omap. reflexivity. Qed.

Lemma partition_debtors (entries : list (Z * Q)) :
  snd (partitionBalances entries) = omap asDebtor entries.
Proof. unfold partitionBalances. rewrite partition_omap. reflexivity. Qed.

(** Every creditor and every debtor starts above 0.01. *)
Lemma partition_above (entries : list (Z * Q)) :
  Forall (fun p => epsilon < party_amount p) (fst (partitionBalances entries))
  /\ Forall (fun p => epsilon < party_amount p) (snd (partitionBalances entries)).
Proof.
  rewrite partition_creditors, partition_debtors.
  split; apply Forall_forall; intros p Hp;
    apply list_elem_of_omap in Hp as ([id amt] & _ & Hp).
  - unfold asCreditor in Hp. simpl in Hp.
    destruct (Qltb epsilon amt) eqn:E; [|discriminate].
    injection Hp as <-. simpl. apply Qltb_lt, E.
  - unfold asDebtor in Hp. simpl in Hp.
    destruct (Qltb epsilon amt); [discriminate|].
    destruct (Qltb amt (- epsilon)) eqn:E; [|discriminate].
    injection Hp as <-. simpl. apply Qltb_lt in E. lra.
Qed.

Lemma loopInv_start (parts : list party * list party) :
  Forall (fun p => epsilon < party_amount p) (fst parts) ->
  Forall (fun p => epsilon < party_amount p) (snd parts) ->
  loopInv (length (fst parts)) (length (snd parts)) (startLoop parts).
Proof.
  intros Hc Hd. unfold loopInv, startLoop. simpl.
  split; [reflexivity|]. split; [reflexivity|].
  split; [intros k p Hk _; apply Qlt_le_weak;
          exact (proj1 (Forall_lookup _ _) Hc k p Hk)|].
  split; [intros k p Hk _; apply Qlt_le_weak;
          exact (proj1 (Forall_lookup _ _) Hd k p Hk)|].
  split; [constructor|]. lia.
Qed.

(** A party that stays current after a transfer has at least 0.01 left. *)
Lemma remaining_after_step (l : list party) (idx k : nat) (p q : party) (left : Q) :
  l !! idx = Some p ->
  (forall k' p', l !! k' = Some p' -> (idx <= k')%nat -> epsilon <= party_amount p') ->
  <[idx := setAmount p left]> l !! k = Some q ->
  ((if Qltb left epsilon then S idx else idx) <= k)%nat ->
  epsilon <= party_amount q.
Proof.
  intros Hp Hold Hq Hk.
  apply list_lookup_insert_Some in Hq as [(<- & <- & _)|[Hne Hq]].
  - simpl. destruct (Qltb left epsilon) eqn:E; [lia|]. apply Qltb_ge, E.
  - apply (Hold k q Hq). destruct (Qltb left epsilon); lia.
Qed.

Lemma loopInv_step (n m : nat) (st st' : loopState) :
  loopInv n m st -> matchStep nameMap st = Some st' -> loopInv n m st'.
Proof.
  intros (Hn & Hm & Hcs & Hds & Hss & Hlen & Hbound) Hstep.
  pose proof (matchStep_progress _ _ Hstep)
    as (Hn' & Hm' & Hi & Hj & _ & _ & Hadv & Hlen').
  destruct (matchStep_inv _ _ Hstep)
    as (c & d & Hc & Hd & Ecs & Eds & Ei & Ej & Ess).
  unfold loopInv. rewrite Hn', Hm', Hlen'.
  split; [exact Hn|]. split; [exact Hm|].
  split; [rewrite Ecs, Ei; intros k p Hk Hle;
          exact (remaining_after_step _ _ _ _ _ _ Hc Hcs Hk Hle)|].
  split; [rewrite Eds, Ej; intros k p Hk Hle;
          exact (remaining_after_step _ _ _ _ _ _ Hd Hds Hk Hle)|].
  split; [|lia].
  rewrite Ess. apply Forall_app. split; [exact Hss|].
  constructor; [|constructor]. simpl.
  pose proof (Hcs _ _ Hc (le_n _)). pose proof (Hds _ _ Hd (le_n _)).
  destruct (transferAmount_cases c d) as [[-> _]|[-> _]]; assumption.
Qed.

(** The invariant holds wherever the loop gets from the partition. *)
Lemma loopInv_reaches (parts : list party * list party) (st : loopState) :
  Forall (fun p => epsilon < party_amount p) (fst parts) ->
  Forall (fun p => epsilon < party_amount p) (snd parts) ->
  reaches nameMap (startLoop parts) st ->
  loopInv (length (fst parts)) (length (snd parts)) st.
Proof.
  intros Hc Hd Hr.
  apply (reaches_invariant (loopInv (length (fst parts)) (length (snd parts)))
           (fun s s' H E => loopInv_step _ _ s s' H E) _ _ Hr).
  apply loopInv_start; assumption.
Qed.

(** The partition keeps the id of an entry. *)
Lemma asCreditor_Some (entry : Z * Q) (p : party) :
  asCreditor entry = Some p <->
  p = mkParty (fst entry) (snd entry) /\ epsilon < snd entry.
Proof.
  unfold asCreditor. destruct (Qltb epsilon (snd entry)) eqn:E; split.
  - intros [= <-]. split; [reflexivity|]. apply Qltb_lt, E.
  - intros [-> _]. reflexivity.
  - discriminate.
  - intros [_ H]. apply Qltb_lt in H. congruence.
Qed.

Lemma asDebtor_Some (entry : Z * Q) (p : party) :
  asDebtor entry = Some p <->
  p = mkParty (fst entry) (- snd entry) /\ snd entry < - epsilon.
Proof.
  unfold asDebtor. destruct (Qltb epsilon (snd entry)) eqn:E1.
  - apply Qltb_lt in E1. split; [discriminate|].
    intros [_ H]. unfold epsilon in *. lra.
  - destruct (Qltb (snd entry) (- epsilon)) eqn:E2; split.
    + intros [= <-]. split; [reflexivity|]. apply Qltb_lt, E2.
    + intros [-> _]. reflexivity.
    + discriminate.
    + intros [_ H]. apply Qltb_lt in H. congruence.
Qed.

(** Entries of distinct ids give parties of distinct ids. *)
Lemma omap_ids_NoDup (f : Z * Q -> option party) (entries : list (Z * Q)) :
  (forall e p, f e = Some p -> party_id p = fst e) ->
  NoDup (entries.*1) ->
  NoDup (party_id <$> omap f entries).
Proof.
  intros Hid. induction entries as [|e rest IH]; intros Hnd.
  - constructor.
  - apply NoDup_cons in Hnd as [Hnew Hrest].
    change (omap f (e :: rest))
      with (match f e with Some y => y :: omap f rest | None => omap f rest end).
    destruct (f e) as [p|] eqn:E; [|apply IH, Hrest].
    rewrite fmap_cons. apply NoDup_cons. split; [|apply IH, Hrest].
    intros Hin. apply Hnew.
    apply list_elem_of_fmap in Hin as (q & Hq & Hin).
    apply list_elem_of_omap in Hin as (e' & He' & Hf).
    apply list_elem_of_fmap. exists e'. split; [|exact He'].
    rewrite <- (Hid _ _ E), Hq. apply (Hid _ _ Hf).
Qed.

End MatchingLoop.

(** ** The settlement plan *)

Section Plan.

Local Open Scope Q_scope.

Variable range : gmap Z Q -> list (Z * Q).

(** [calculate] returns: the fuel it is given is enough for the loop to
    leave by its condition. *)
Lemma calculate_runs (people : list Person) (bills : list Bill) :
  let parts := partitionBalances (range (balances people bills)) in
  exists st,
    matchLoop (initNames people) (length (fst parts) + length (snd parts))
              (startLoop parts) = Some st
    /\ calculate range people bills = Some (settlements st)
    /\ reaches (initNames people) (startLoop parts) st
    /\ matchStep (initNames people) st = None.
Proof.
  intros parts.
  destruct (matchLoop_terminates (initNames people)
              (length (fst parts) + length (snd parts)) (startLoop parts))
    as [st Hst]; [simpl; lia|].
  exists st. split; [exact Hst|].
  split; [unfold calculate; fold parts; rewrite Hst; reflexivity|].
  apply (matchLoop_reaches _ _ _ _ Hst).
Qed.

(** When the partition loop visits every entry once, the creditors are
    the ids with a balance above 0.01 and the debtors the ids with a balance
    below -0.01, each once, so the lengths of the two lists count them. *)
Lemma parties_of_balances (people : list Person) (bills : list Bill) :
  visitsAll range ->
  let balance := balances people bills in
  (forall p, p ∈ creditorsOf range people bills <->
             balance !! party_id p = Some (party_amount p)
             /\ epsilon < party_amount p)
  /\ (forall p, p ∈ debtorsOf range people bills <->
                exists amt, balance !! party_id p = Some amt
                            /\ amt < - epsilon /\ party_amount p = - amt)
  /\ NoDup (party_id <$> creditorsOf range people bills)
  /\ NoDup (party_id <$> debtorsOf range people bills).
Proof.
  intros Hrange balance. unfold creditorsOf, debtorsOf.
  rewrite partition_creditors, partition_debtors. fold balance.
  assert (Hin : forall id amt, (id, amt) ∈ range balance <-> balance !! id = Some amt)
    by (intros id amt; rewrite (Hrange _); apply elem_of_map_to_list).
  assert (Hnd : NoDup ((range balance).*1))
    by (rewrite (Hrange _); apply NoDup_fst_map_to_list).
  split; [|split; [|split]].
  - intros p. rewrite list_elem_of_omap. split.
    + intros ([id amt] & He & Hp). apply asCreditor_Some in Hp as [-> Hamt].
      simpl in *. split; [apply Hin, He|exact Hamt].
    + intros [Hb Hamt]. exists (party_id p, party_amount p).
      split; [apply Hin, Hb|]. apply asCreditor_Some. destruct p. auto.
  - intros p. rewrite list_elem_of_omap. split.
    + intros ([id amt] & He & Hp). apply asDebtor_Some in Hp as [-> Hamt].
      simpl in *. exists amt. split; [apply Hin, He|]. auto.
    + intros (amt & Hb & Hamt & Hp). exists (party_id p, amt).
      split; [apply Hin, Hb|]. apply asDebtor_Some. destruct p. simpl in *.
      subst. auto.
  - apply omap_ids_NoDup; [|exact Hnd].
    intros e p Hp. apply asCreditor_Some in Hp as [-> _]. reflexivity.
  - apply omap_ids_NoDup; [|exact Hnd].
    intros e p Hp. apply asDebtor_Some in Hp as [-> _]. reflexivity.
Qed.



End Plan.

(** ** What the plan pays to whom *)

Section Totals.

Local Open Scope Q_scope.

Variable nameMap : gmap Z string.

Lemma sumTo_snoc (name : string) (plan : list Settlement) (s : Settlement) :
  sumTo name (plan ++ [s])
  == sumTo name plan + (if decide (To s = name) then settlement_Amount s else 0).
Proof.
  induction plan as [|s' plan IH]; simpl; [ring|]. rewrite IH. ring.
Qed.

Lemma sumFrom_snoc (name : string) (plan : list Settlement) (s : Settlement) :
  sumFrom name (plan ++ [s])
  == sumFrom name plan + (if decide (From s = name) then settlement_Amount s else 0).
Proof.
  induction plan as [|s' plan IH]; simpl; [ring|]. rewrite IH. ring.
Qed.

Lemma same_position_id (list0 list : list party) (k : nat) (p0 p : party) :
  party_id <$> list = party_id <$> list0 ->
  list0 !! k = Some p0 -> list !! k = Some p -> party_id p = party_id p0.
Proof.
  intros Hids H0 H.
  assert (E : (party_id <$> list) !! k = (party_id <$> list0) !! k)
    by (rewrite Hids; reflexivity).
  rewrite !list_lookup_fmap, H0, H in E. simpl in E. congruence.
Qed.

Lemma sideInv_start (list0 : list party) (paid : string -> Q) :
  Forall (fun p => epsilon < party_amount p) list0 ->
  (forall name, paid name == 0) ->
  sideInv nameMap list0 list0 0 paid.
Proof.
  intros Habove Hpaid. unfold sideInv. split; [reflexivity|].
  split; [intros k p0 p H0 H; rewrite Hpaid; assert (p = p0) by congruence;
          subst; ring|].
  split; [|intros; lia].
  intros k p Hk. pose proof (proj1 (Forall_lookup _ _) Habove k p Hk) as H.
  unfold epsilon in H. lra.
Qed.

(** A transfer of [a] by the current party [p] of a side keeps the side's
    invariant, when the names of the side tell its parties apart. *)
Lemma sideInv_step (list0 list : list party) (idx : nat) (paid paid' : string -> Q)
      (p : party) (a : Q) :
  distinctNames nameMap list0 ->
  sideInv nameMap list0 list idx paid ->
  list !! idx = Some p ->
  a <= party_amount p ->
  (forall name,
      paid' name
      == paid name + (if decide (nameAt nameMap (party_id p) = name) then a else 0)) ->
  sideInv nameMap list0 (<[idx := setAmount p (party_amount p - a)]> list)
          (if Qltb (party_amount p - a) epsilon then S idx else idx) paid'.
Proof.
  intros Hnd (Hids & Hsum & Hpos & Hpast) Hp Hap Hpaid'.
  unfold sideInv. split; [|split; [|split]].
  - rewrite list_fmap_insert. simpl. rewrite list_insert_id; [exact Hids|].
    rewrite list_lookup_fmap, Hp. reflexivity.
  - intros k p0 q Hk0 Hq. rewrite Hpaid'.
    apply list_lookup_insert_Some in Hq as [(<- & <- & _)|[Hne Hq]].
    + rewrite (same_position_id _ _ _ _ _ Hids Hk0 Hp).
      rewrite decide_True by reflexivity. simpl.
      pose proof (Hsum _ _ _ Hk0 Hp). lra.
    + rewrite decide_False; [pose proof (Hsum _ _ _ Hk0 Hq); lra|].
      intros Hname. apply Hne.
      destruct (list0 !! idx) as [p0i|] eqn:Hi.
      * rewrite (same_position_id _ _ _ _ _ Hids Hi Hp) in Hname.
        apply (NoDup_lookup _ idx k (nameAt nameMap (party_id p0i)) Hnd).
        -- rewrite list_lookup_fmap, Hi. reflexivity.
        -- rewrite list_lookup_fmap, Hk0. simpl. congruence.
      * apply lookup_ge_None in Hi. apply lookup_lt_Some in Hp.
        assert (length list = length list0)
          by (rewrite <- (length_fmap party_id list), Hids; apply length_fmap).
        lia.
  - intros k q Hq.
    apply list_lookup_insert_Some in Hq as [(<- & <- & _)|[Hne Hq]].
    + simpl. lra.
    + exact (Hpos _ _ Hq).
  - intros k q Hq Hk.
    apply list_lookup_insert_Some in Hq as [(<- & <- & _)|[Hne Hq]].
    + simpl. destruct (Qltb (party_amount p - a) epsilon) eqn:E; [|lia].
      apply Qltb_lt, E.
    + apply (Hpast _ _ Hq). destruct (Qltb (party_amount p - a) epsilon); lia.
Qed.

Lemma planInv_step (cs0 ds0 : list party) (st st' : loopState) :
  distinctNames nameMap cs0 ->
  distinctNames nameMap ds0 ->
  planInv nameMap cs0 ds0 st ->
  matchStep nameMap st = Some st' ->
  planInv nameMap cs0 ds0 st'.
Proof.
  intros Hcn Hdn [Hcs Hds] Hstep.
  destruct (matchStep_inv _ _ _ Hstep)
    as (c & d & Hc & Hd & Ecs & Eds & Ei & Ej & Ess).
  assert (Hac : transferAmount c d <= party_amount c)
    by (destruct (transferAmount_cases c d) as [[-> ?]|[-> ?]]; lra).
  assert (Had : transferAmount c d <= party_amount d)
    by (destruct (transferAmount_cases c d) as [[-> ?]|[-> ?]]; lra).
  unfold planInv. rewrite Ecs, Eds, Ei, Ej. split.
  - apply (sideInv_step _ _ _ _ _ _ _ Hcn Hcs Hc Hac).
    intros name. rewrite Ess, sumTo_snoc. reflexivity.
  - apply (sideInv_step _ _ _ _ _ _ _ Hdn Hds Hd Had).
    intros name. rewrite Ess, sumFrom_snoc. reflexivity.
Qed.

Lemma planInv_reaches (parts : list party * list party) (st : loopState) :
  Forall (fun p => epsilon < party_amount p) (fst parts) ->
  Forall (fun p => epsilon < party_amount p) (snd parts) ->
  distinctNames nameMap (fst parts) ->
  distinctNames nameMap (snd parts) ->
  reaches nameMap (startLoop parts) st ->
  planInv nameMap (fst parts) (snd parts) st.
Proof.
  intros Hc Hd Hcn Hdn Hr.
  apply (reaches_invariant nameMap (planInv nameMap (fst parts) (snd parts))
           (fun s s' H E => planInv_step _ _ s s' Hcn Hdn H E) _ _ Hr).
  split; apply sideInv_start; try assumption; intros name; reflexivity.
Qed.

(** What the invariant of a side says of a party of the starting list:
    the plan has moved at most what it started with, and all of it but
    less than 0.01 once the index is past the list. *)
Lemma sideInv_party (list0 list : list party) (idx : nat) (paid : string -> Q)
      (p0 : party) :
  sideInv nameMap list0 list idx paid ->
  p0 ∈ list0 ->
  paid (nameAt nameMap (party_id p0)) <= party_amount p0
  /\ ((length list <= idx)%nat ->
      party_amount p0 - paid (nameAt nameMap (party_id p0)) < epsilon).
Proof.
  intros (Hids & Hsum & Hpos & Hpast) Hin.
  apply list_elem_of_lookup in Hin as [k Hk0].
  assert (Hlen : length list = length list0)
    by (rewrite <- (length_fmap party_id list), Hids; apply length_fmap).
  destruct (list !! k) as [p|] eqn:Hk.
  - pose proof (Hsum _ _ _ Hk0 Hk). pose proof (Hpos _ _ Hk).
    split; [lra|]. intros Hidx.
    apply lookup_lt_Some in Hk as Hlt.
    pose proof (Hpast _ _ Hk ltac:(lia)). lra.
  - apply lookup_ge_None in Hk. apply lookup_lt_Some in Hk0. lia.
Qed.

End Totals.

Section PlanTotals.

Local Open Scope Q_scope.

Variable range : gmap Z Q -> list (Z * Q).

Hypothesis range_visits : visitsAll range.

(** A balance above 0.01 makes its id a creditor of that amount. *)
Lemma creditor_of_balance (people : list Person) (bills : list Bill) (id : Z) (amt : Q) :
  balances people bills !! id = Some amt ->
  epsilon < amt ->
  mkParty id amt ∈ creditorsOf range people bills.
Proof.
  intros Hb Hamt. unfold creditorsOf. rewrite partition_creditors.
  apply list_elem_of_omap. exists (id, amt). split.
  - rewrite (range_visits _). apply elem_of_map_to_list, Hb.
  - unfold asCreditor. simpl.
    rewrite (proj2 (Qltb_lt _ _) Hamt). reflexivity.
Qed.

(** A balance below -0.01 makes its id a debtor of the opposite amount. *)
Lemma debtor_of_balance (people : list Person) (bills : list Bill) (id : Z) (amt : Q) :
  balances people bills !! id = Some amt ->
  amt < - epsilon ->
  mkParty id (- amt) ∈ debtorsOf range people bills.
Proof.
  intros Hb Hamt. unfold debtorsOf. rewrite partition_debtors.
  apply list_elem_of_omap. exists (id, amt). split.
  - rewrite (range_visits _). apply elem_of_map_to_list, Hb.
  - unfold asDebtor. simpl.
    assert (E : Qltb epsilon amt = false)
      by (apply Qltb_ge; unfold epsilon in *; lra).
    rewrite E, (proj2 (Qltb_lt _ _) Hamt). reflexivity.
Qed.


End PlanTotals.



(** * Further properties *)

(** ** Balances, bill by bill *)

Section BillEffects.

Local Open Scope Q_scope.

#[local] Set Warnings "-clear-no-such-hyp".

Lemma balanceAt_insert (k j : Z) (v : Q) (m : gmap Z Q) :
  balanceAt (<[k := v]> m) j = if decide (k = j) then v else balanceAt m j.
Proof.
  unfold balanceAt. rewrite lookup_insert. case_decide; reflexivity.
Qed.

Lemma timesListed_cons (k p : Z) (rest : list Z) :
  timesListed k (p :: rest)
  = if decide (p = k) then S (timesListed k rest) else timesListed k rest.
Proof.
  unfold timesListed. rewrite filter_cons. case_decide; reflexivity.
Qed.

(** The debits of a bill at one id: one share per listing. *)
Lemma balanceAt_debits (share : Q) (k : Z) (participants : list Z) :
  forall m,
    balanceAt (foldl (fun balance participantID =>
                        subBalance participantID share balance) m participants) k
    == balanceAt m k - inject_Z (Z.of_nat (timesListed k participants)) * share.
Proof.
  induction participants as [|p rest IH]; intros m.
  - change (timesListed k []) with 0%nat. simpl. ring.
  - cbn [foldl]. rewrite IH, timesListed_cons.
    unfold subBalance. rewrite balanceAt_insert.
    destruct (decide (p = k)) as [->|Hne].
    + rewrite Nat2Z.inj_succ. unfold Z.succ. rewrite inject_Z_plus. ring.
    + ring.
Qed.

Lemma balance_after_bill_aux (m : gmap Z Q) (bill : Bill) (k : Z) :
  balanceAt (applyBill m bill) k == balanceAt m k + billDelta bill k.
Proof.
  unfold applyBill, billDelta. destruct (Participants bill) as [|p rest] eqn:E.
  - ring.
  - rewrite balanceAt_debits. unfold addBalance. rewrite balanceAt_insert.
    unfold billShare. rewrite E.
    destruct (decide (PaidBy bill = k)) as [->|Hne].
    + rewrite decide_True by reflexivity. ring.
    + rewrite decide_False by congruence. ring.
Qed.

Lemma timesListed_absent (k : Z) (participants : list Z) :
  k ∉ participants -> timesListed k participants = 0%nat.
Proof.
  induction participants as [|p rest IH]; intros Hk; [reflexivity|].
  rewrite timesListed_cons. apply not_elem_of_cons in Hk as [Hne Hrest].
  rewrite decide_False by congruence. apply IH, Hrest.
Qed.

(** X1. What one bill does to the balance of an id: a bill with
    participants credits its amount to the payer and debits one share,
    the amount over the length of the participant list, for each time the
    id is listed, so an id listed twice pays twice and a payer who is not
    listed pays nothing. An id that neither paid nor is listed keeps its
    balance. *)
Theorem balance_after_bill (m : gmap Z Q) (bill : Bill) (k : Z) :
  balanceAt (applyBill m bill) k == balanceAt m k + billDelta bill k
  /\ (k <> PaidBy bill -> k ∉ Participants bill ->
      balanceAt (applyBill m bill) k == balanceAt m k).
Proof.
  split; [apply balance_after_bill_aux|].
  intros Hpayer Hlisted. rewrite balance_after_bill_aux. unfold billDelta.
  destruct (Participants bill) as [|p rest] eqn:E; [ring|].
  rewrite (timesListed_absent _ _ Hlisted), decide_False by exact Hpayer.
  simpl. ring.
Qed.

Lemma balanceAt_init (people : list Person) (k : Z) :
  balanceAt (initBalance people) k = 0.
Proof.
  unfold balanceAt. destruct (initBalance people !! k) as [v|] eqn:E; [|reflexivity].
  simpl. exact (initBalance_zero _ _ _ E).
Qed.

Lemma balanceAt_bills (bills : list Bill) (k : Z) :
  forall m, balanceAt (foldl applyBill m bills) k == balanceAt m k + sumDeltas bills k.
Proof.
  induction bills as [|bill rest IH]; intros m; simpl.
  - ring.
  - rewrite IH, balance_after_bill_aux. ring.
Qed.

Lemma sumDeltas_perm (bills bills' : list Bill) (k : Z) :
  bills ≡ₚ bills' -> sumDeltas bills k == sumDeltas bills' k.
Proof.
  induction 1 as [|b l l' _ IH|b1 b2 l|l1 l2 l3 _ IH1 _ IH2]; simpl.
  - reflexivity.
  - rewrite IH. reflexivity.
  - ring.
  - rewrite IH1. exact IH2.
Qed.

Lemma balanceAt_balances (people : list Person) (bills : list Bill) (k : Z) :
  balanceAt (balances people bills) k == sumDeltas bills k.
Proof.
  unfold balances. rewrite balanceAt_bills, balanceAt_init. ring.
Qed.


Lemma dom_people (people : list Person) :
  forall m : gmap Z Q,
    dom (foldl (fun balance person => <[person_ID person := 0]> balance) m people)
    = dom m ∪ list_to_set (person_ID <$> people).
Proof.
  induction people as [|p rest IH]; intros m; simpl.
  - set_solver.
  - rewrite IH, dom_insert_L. set_solver.
Qed.

Lemma dom_debits (share : Q) (participants : list Z) :
  forall m : gmap Z Q,
    dom (foldl (fun balance participantID =>
                  subBalance participantID share balance) m participants)
    = dom m ∪ list_to_set participants.
Proof.
  induction participants as [|p rest IH]; intros m; simpl.
  - set_solver.
  - rewrite IH. unfold subBalance. rewrite dom_insert_L. set_solver.
Qed.

Lemma dom_applyBill (m : gmap Z Q) (bill : Bill) :
  dom (applyBill m bill) = dom m ∪ billIds bill.
Proof.
  unfold applyBill, billIds. destruct (Participants bill) as [|p rest].
  - set_solver.
  - rewrite dom_debits. unfold addBalance. rewrite dom_insert_L. set_solver.
Qed.

(** X3. The ids that have a balance are the ids of the people together
    with, for every bill with participants, its payer and its participants,
    known as people or not. A bill without participants brings in no id,
    its payer's neither. *)
Theorem balance_ids (people : list Person) (bills : list Bill) :
  dom (balances people bills)
  = list_to_set (person_ID <$> people) ∪ ⋃ (billIds <$> bills).
Proof.
  unfold balances, initBalance.
  assert (H : forall m : gmap Z Q,
             dom (foldl applyBill m bills) = dom m ∪ ⋃ (billIds <$> bills)).
  { induction bills as [|bill rest IH]; intros m; simpl.
    - set_solver.
    - rewrite IH, dom_applyBill. set_solver. }
  rewrite H, dom_people. set_solver.
Qed.

Lemma initNames_snoc (people : list Person) (p : Person) :
  initNames (people ++ [p]) = <[person_ID p := person_Name p]> (initNames people).
Proof. unfold initNames. rewrite foldl_snoc. reflexivity. Qed.

(** X4. The name map gives an id the name of the last person listed with
    it, and an id that no person has reads as the empty name. *)
Theorem names_of_people (people : list Person) (id : Z) :
  initNames people !! id = lastNamed people id
  /\ (id ∉ person_ID <$> people -> nameAt (initNames people) id = EmptyString).
Proof.
  assert (H : initNames people !! id = lastNamed people id).
  { induction people as [|p people IH] using rev_ind; [reflexivity|].
    rewrite initNames_snoc, lookup_insert. unfold lastNamed.
    rewrite filter_app, filter_cons, filter_nil.
    destruct (decide (person_ID p = id)) as [Heq|Hne].
    - rewrite last_snoc. reflexivity.
    - rewrite app_nil_r. exact IH. }
  split; [exact H|].
  intros Hid. unfold nameAt. rewrite H. unfold lastNamed.
  destruct (last (filter (fun p => person_ID p = id) people)) as [p|] eqn:E;
    [|reflexivity].
  exfalso. apply Hid. apply last_Some_elem_of in E.
  apply list_elem_of_filter in E as [Hp Hin].
  apply list_elem_of_fmap. exists p. auto.
Qed.

End BillEffects.

(** ** The books of the matching loop *)

Section Flow.

Local Open Scope Q_scope.

Variable nameMap : gmap Z string.

Lemma partyTotal_insert (l : list party) :
  forall (i : nat) (p q : party),
    l !! i = Some p ->
    partyTotal (<[i := q]> l) == partyTotal l - party_amount p + party_amount q.
Proof.
  induction l as [|x l IH]; intros [|i] p q H; simpl in *; try discriminate.
  - injection H as ->. ring.
  - rewrite (IH _ _ _ H). ring.
Qed.

Lemma planTotal_snoc (plan : list Settlement) (s : Settlement) :
  planTotal (plan ++ [s]) == planTotal plan + settlement_Amount s.
Proof.
  induction plan as [|s' plan IH]; simpl; [ring|]. rewrite IH. ring.
Qed.

(** Parties with less than 0.01 left have little left together. *)
Lemma partyTotal_small (l : list party) :
  (forall k p, l !! k = Some p -> party_amount p < epsilon) ->
  partyTotal l <= inject_Z (Z.of_nat (length l)) * epsilon.
Proof.
  induction l as [|x l IH]; intros H.
  - apply Qle_bool_iff. reflexivity.
  - change (length (x :: l)) with (S (length l)).
    rewrite Nat2Z.inj_succ. unfold Z.succ. rewrite inject_Z_plus.
    change (partyTotal (x :: l)) with (party_amount x + partyTotal l).
    change (inject_Z 1) with 1.
    pose proof (H 0%nat x eq_refl).
    assert (Hl : partyTotal l <= inject_Z (Z.of_nat (length l)) * epsilon)
      by (apply IH; intros k p Hk; exact (H (S k) p Hk)).
    lra.
Qed.

Lemma partyTotal_nonneg (l : list party) :
  (forall k p, l !! k = Some p -> 0 <= party_amount p) -> 0 <= partyTotal l.
Proof.
  induction l as [|x l IH]; intros H; simpl; [lra|].
  pose proof (H 0%nat x eq_refl).
  assert (0 <= partyTotal l) by (apply IH; intros k p Hk; exact (H (S k) p Hk)).
  lra.
Qed.

(** One side after a round: nothing negative, and the party is passed
    only with less than 0.01 left. *)
Lemma side_after_step (l : list party) (idx k : nat) (p q : party) (a : Q) :
  l !! idx = Some p ->
  a <= party_amount p ->
  (forall k' p', l !! k' = Some p' ->
     0 <= party_amount p' /\ ((k' < idx)%nat -> party_amount p' < epsilon)) ->
  <[idx := setAmount p (party_amount p - a)]> l !! k = Some q ->
  0 <= party_amount q
  /\ ((k < (if Qltb (party_amount p - a) epsilon then S idx else idx))%nat ->
      party_amount q < epsilon).
Proof.
  intros Hp Ha Hold Hq.
  apply list_lookup_insert_Some in Hq as [(<- & <- & _)|[Hne Hq]].
  - simpl. split; [lra|].
    destruct (Qltb (party_amount p - a) epsilon) eqn:E; [|lia].
    intros _. apply Qltb_lt, E.
  - destruct (Hold _ _ Hq) as [H0 Hpast]. split; [exact H0|].
    intros Hk. apply Hpast. destruct (Qltb (party_amount p - a) epsilon); lia.
Qed.

Lemma flowInv_step (cs0 ds0 : list party) (st st' : loopState) :
  flowInv cs0 ds0 st -> matchStep nameMap st = Some st' -> flowInv cs0 ds0 st'.
Proof.
  intros (Hct & Hdt & Hcs & Hds & Hi & Hj) Hstep.
  pose proof (matchStep_progress _ _ _ Hstep)
    as (_ & _ & _ & _ & Hi' & Hj' & _ & Hlen).
  destruct (matchStep_inv _ _ _ Hstep)
    as (c & d & Hc & Hd & Ecs & Eds & Ei & Ej & Ess).
  assert (Hac : transferAmount c d <= party_amount c)
    by (destruct (transferAmount_cases c d) as [[-> ?]|[-> ?]]; lra).
  assert (Had : transferAmount c d <= party_amount d)
    by (destruct (transferAmount_cases c d) as [[-> ?]|[-> ?]]; lra).
  unfold flowInv. rewrite Hlen.
  split; [|split; [|split; [|split; [|split; lia]]]].
  - rewrite Ess, planTotal_snoc, Ecs, (partyTotal_insert _ _ _ _ Hc). simpl. lra.
  - rewrite Ess, planTotal_snoc, Eds, (partyTotal_insert _ _ _ _ Hd). simpl. lra.
  - rewrite Ecs, Ei. intros k q Hq. exact (side_after_step _ _ _ _ _ _ Hc Hac Hcs Hq).
  - rewrite Eds, Ej. intros k q Hq. exact (side_after_step _ _ _ _ _ _ Hd Had Hds Hq).
Qed.

Lemma flowInv_start (parts : list party * list party) :
  Forall (fun p => epsilon < party_amount p) (fst parts) ->
  Forall (fun p => epsilon < party_amount p) (snd parts) ->
  flowInv (fst parts) (snd parts) (startLoop parts).
Proof.
  intros Hc Hd. unfold flowInv, startLoop. simpl.
  split; [ring|]. split; [ring|].
  split; [|split; [|split; lia]]; intros k p Hk; (split; [|lia]).
  - pose proof (proj1 (Forall_lookup _ _) Hc k p Hk) as H. unfold epsilon in H. lra.
  - pose proof (proj1 (Forall_lookup _ _) Hd k p Hk) as H. unfold epsilon in H. lra.
Qed.

Lemma flowInv_reaches (parts : list party * list party) (st : loopState) :
  Forall (fun p => epsilon < party_amount p) (fst parts) ->
  Forall (fun p => epsilon < party_amount p) (snd parts) ->
  reaches nameMap (startLoop parts) st ->
  flowInv (fst parts) (snd parts) st.
Proof.
  intros Hc Hd Hr.
  apply (reaches_invariant nameMap (flowInv (fst parts) (snd parts))
           (fun s s' H E => flowInv_step _ _ s s' H E) _ _ Hr).
  apply flowInv_start; assumption.
Qed.

Lemma sameParty_insert (l l0 : list party) (idx : nat) (p p0 : party) (a : Q) :
  Forall2 sameParty l l0 ->
  l !! idx = Some p -> l0 !! idx = Some p0 ->
  0 <= a ->
  Forall2 sameParty (<[idx := setAmount p (party_amount p - a)]> l) l0.
Proof.
  intros Hall Hp Hp0 Ha.
  assert (Hsame : sameParty p p0).
  { destruct (Forall2_lookup_l _ _ _ _ _ Hall Hp) as (p0' & Hp0' & H).
    congruence. }
  rewrite <- (list_insert_id l0 idx p0 Hp0).
  apply Forall2_insert; [exact Hall|].
  destruct Hsame as [Hid Hle]. split; simpl; [exact Hid|lra].
Qed.

Lemma routeInv_step (cs0 ds0 : list party) (st st' : loopState) :
  flowInv cs0 ds0 st ->
  routeInv nameMap cs0 ds0 st ->
  matchStep nameMap st = Some st' ->
  routeInv nameMap cs0 ds0 st'.
Proof.
  intros (_ & _ & Hcs & Hds & _) (Hc2 & Hd2 & Hss) Hstep.
  destruct (matchStep_inv _ _ _ Hstep)
    as (c & d & Hc & Hd & Ecs & Eds & _ & _ & Ess).
  destruct (Forall2_lookup_l _ _ _ _ _ Hc2 Hc) as (c0 & Hc0 & Hidc & Hlec).
  destruct (Forall2_lookup_l _ _ _ _ _ Hd2 Hd) as (d0 & Hd0 & Hidd & Hled).
  destruct (Hcs _ _ Hc) as [Hc_pos _]. destruct (Hds _ _ Hd) as [Hd_pos _].
  assert (Ha : 0 <= transferAmount c d
               /\ transferAmount c d <= party_amount c
               /\ transferAmount c d <= party_amount d)
    by (destruct (transferAmount_cases c d) as [[-> ?]|[-> ?]]; lra).
  destruct Ha as (Ha0 & Hac & Had).
  unfold routeInv. rewrite Ecs, Eds, Ess.
  split; [exact (sameParty_insert _ _ _ _ _ _ Hc2 Hc Hc0 Ha0)|].
  split; [exact (sameParty_insert _ _ _ _ _ _ Hd2 Hd Hd0 Ha0)|].
  apply Forall_app. split; [exact Hss|].
  constructor; [|constructor].
  exists c0, d0. simpl. rewrite Hidc, Hidd.
  split; [eapply list_elem_of_lookup_2, Hc0|].
  split; [eapply list_elem_of_lookup_2, Hd0|].
  repeat split; lra.
Qed.

Lemma routeInv_start (parts : list party * list party) :
  routeInv nameMap (fst parts) (snd parts) (startLoop parts).
Proof.
  unfold routeInv, startLoop. simpl.
  split; [|split; [|constructor]];
    apply Forall2_same_length_lookup_2; try reflexivity;
    intros i x y Hx Hy; assert (x = y) by congruence; subst;
    split; [reflexivity|lra|reflexivity|lra].
Qed.

(** Both invariants hold wherever the loop gets from the partition. *)
Lemma books_reaches (parts : list party * list party) (st : loopState) :
  Forall (fun p => epsilon < party_amount p) (fst parts) ->
  Forall (fun p => epsilon < party_amount p) (snd parts) ->
  reaches nameMap (startLoop parts) st ->
  flowInv (fst parts) (snd parts) st
  /\ routeInv nameMap (fst parts) (snd parts) st.
Proof.
  intros Hc Hd Hr.
  apply (reaches_invariant nameMap
           (fun s => flowInv (fst parts) (snd parts) s
                     /\ routeInv nameMap (fst parts) (snd parts) s)
           (fun s s' H E =>
              conj (flowInv_step _ _ s s' (proj1 H) E)
                   (routeInv_step _ _ s s' (proj1 H) (proj2 H) E)) _ _ Hr).
  split; [apply flowInv_start; assumption|apply routeInv_start].
Qed.

End Flow.

(** ** More on the settlement plan *)

Section PlanBooks.

Local Open Scope Q_scope.

Variable range : gmap Z Q -> list (Z * Q).

(** The state [calculate] ends in, with the facts of every invariant. *)
Lemma calculate_books (people : list Person) (bills : list Bill) :
  let cs := creditorsOf range people bills in
  let ds := debtorsOf range people bills in
  exists st,
    calculate range people bills = Some (settlements st)
    /\ flowInv cs ds st
    /\ routeInv (initNames people) cs ds st
    /\ length (creditors st) = length cs
    /\ length (debtors st) = length ds
    /\ ((length cs <= loop_i st)%nat \/ (length ds <= loop_j st)%nat).
Proof.
  intros cs ds.
  destruct (calculate_runs range people bills) as (st & _ & Hcalc & Hr & Hdone).
  destruct (partition_above (range (balances people bills))) as [Hc Hd].
  destruct (books_reaches _ _ st Hc Hd Hr) as [Hflow Hroute].
  pose proof (loopInv_reaches _ _ st Hc Hd Hr) as (Hn & Hm & _).
  exists st.
  split; [exact Hcalc|]. split; [exact Hflow|]. split; [exact Hroute|].
  split; [exact Hn|]. split; [exact Hm|].
  change (length cs) with (length (fst (partitionBalances (range (balances people bills))))).
  change (length ds) with (length (snd (partitionBalances (range (balances people bills))))).
  destruct (matchStep_None _ _ Hdone) as [H|H]; [left|right]; lia.
Qed.




Lemma balances_no_participants (people : list Person) (bills : list Bill) :
  Forall (fun bill => Participants bill = []) bills ->
  balances people bills = initBalance people.
Proof.
  intros Hall. unfold balances. generalize (initBalance people).
  induction Hall as [|bill rest Hbill _ IH]; intros m; simpl; [reflexivity|].
  rewrite (applyBill_no_participants _ _ Hbill). apply IH.
Qed.

(** X8. Without a bill that has participants (so also without any bill)
    every person's balance is 0 and the plan is empty, however many people
    there are. *)
Theorem no_participants_no_plan (people : list Person) (bills : list Bill) :
  visitsAll range ->
  Forall (fun bill => Participants bill = []) bills ->
  calculate range people bills = Some []
  /\ forall id amt, balances people bills !! id = Some amt -> amt = 0.
Proof.
  intros Hrange Hbills.
  pose proof (balances_no_participants people bills Hbills) as Hbal.
  assert (Hzero : forall id amt, balances people bills !! id = Some amt -> amt = 0)
    by (rewrite Hbal; apply initBalance_zero).
  split; [|exact Hzero].
  destruct (parties_of_balances range people bills Hrange) as (Hcs & Hds & _).
  assert (Hno_c : creditorsOf range people bills = []).
  { destruct (creditorsOf range people bills) as [|c cs]; [reflexivity|].
    exfalso. destruct (proj1 (Hcs c)) as [Hb Hamt]; [left|].
    rewrite (Hzero _ _ Hb) in Hamt. unfold epsilon in Hamt. lra. }
  assert (Hno_d : debtorsOf range people bills = []).
  { destruct (debtorsOf range people bills) as [|d ds]; [reflexivity|].
    exfalso. destruct (proj1 (Hds d)) as (owes & Hb & Hamt & _); [left|].
    rewrite (Hzero _ _ Hb) in Hamt. unfold epsilon in Hamt. lra. }
  destruct (calculate_runs range people bills) as (st & _ & Hcalc & Hr & _).
  destruct (partition_above (range (balances people bills))) as [Hc Hd].
  pose proof (loopInv_reaches _ _ st Hc Hd Hr) as (_ & _ & _ & _ & _ & _ & Hbound).
  unfold creditorsOf in Hno_c. unfold debtorsOf in Hno_d.
  rewrite Hno_c, Hno_d in Hbound. simpl in Hbound.
  rewrite Hcalc. f_equal. apply nil_length_inv. lia.
Qed.

End PlanBooks.

(** ** More on the rate source *)

Section RateSourceFacts.

Context {json : Unmarshal}.

(** A successful parse, taken apart. *)
Lemma parse_success_inv (base data : string) (entry : rateEntry) :
  parseRateResponse base data = Some (entry, None) ->
  exists raw rateRaw rates date,
    unmarshalRaw data = Decoded raw
    /\ raw !! ToLower base = Some rateRaw
    /\ unmarshalRates rateRaw = Decoded rates
    /\ (raw !! "date"%string = None -> date = EmptyString)
    /\ entry = {| Rates := <[ToLower base := 1%Q]> rates; Date := date; FetchedAt := 0 |}.
Proof.
  unfold parseRateResponse.
  destruct (unmarshalRaw data) as [msg| |raw]; [discriminate| |].
  - rewrite !lookup_empty. discriminate.
  - destruct (raw !! "date"%string) as [v|] eqn:Ed;
      [destruct (unmarshalString v) as [msg| |d]|]; try discriminate;
      (destruct (raw !! ToLower base) as [rateRaw|] eqn:Eb; [|discriminate];
       destruct (unmarshalRates rateRaw) as [msg| |rates] eqn:Er; try discriminate;
       intros [= <-]; eexists raw, rateRaw, rates, _;
       (split; [reflexivity|]); (split; [exact Eb|]); (split; [exact Er|]);
       (split; [|reflexivity]); intros; congruence).
Qed.

(** X9. A table that [parseRateResponse] returns has, for every currency
    other than the base, exactly what the response has for it (the rate, or
    no rate); its fetch time is not set yet; and a response without a
    [date] gives the empty date, not an error. *)
Theorem parse_keeps_remote_rates (base data : string) (entry : rateEntry) :
  parseRateResponse base data = Some (entry, None) ->
  exists raw rateRaw rates,
    unmarshalRaw data = Decoded raw
    /\ raw !! ToLower base = Some rateRaw
    /\ unmarshalRates rateRaw = Decoded rates
    /\ (forall cur, cur <> ToLower base -> Rates entry !! cur = rates !! cur)
    /\ FetchedAt entry = 0
    /\ (raw !! "date"%string = None -> Date entry = EmptyString).
Proof.
  intros H.
  destruct (parse_success_inv _ _ _ H) as (raw & rateRaw & rates & date & Hraw & Hbase & Hrates & Hdate & ->).
  exists raw, rateRaw, rates. simpl. repeat split; try assumption.
  intros cur Hcur. apply lookup_insert_ne. congruence.
Qed.

(** One attempt, taken apart: the request it adds, and what it returns. *)
Lemma fetchRatesOnce_cases (base : string) (w w' : world)
      (e : rateEntry) (err : option error) :
  fetchRatesOnce base w = Some ((e, err), w') ->
  w' = setRequested w (requested w ++ [exchangeURL base])
  /\ match err with
     | None =>
         FetchedAt e = clock w
         /\ Rates e !! ToLower base = Some 1%Q
         /\ exists data,
              remote w (length (requested w)) (exchangeURL base)
              = Responds 200 (inl data)
     | Some _ => e = zeroRateEntry
     end.
Proof.
  unfold fetchRatesOnce, bind, httpGet. simpl.
  destruct (remote w (length (requested w)) (exchangeURL base)) as [cause|status body].
  - intros [= <- <- <-]. auto.
  - destruct (status =? 200) eqn:Es; simpl; [|intros [= <- <- <-]; auto].
    apply Z.eqb_eq in Es as ->.
    destruct body as [data|cause]; [|intros [= <- <- <-]; auto].
    destruct (parseRateResponse base data) as [[entry [perr|]]|] eqn:Ep;
      [intros [= <- <- <-]; auto| |discriminate].
    intros [= <- <- <-]. split; [reflexivity|]. split; [reflexivity|].
    destruct (parse_success_inv _ _ _ Ep) as (raw & rateRaw & rates & date & _ & _ & _ & _ & ->).
    simpl. split; [apply lookup_insert_eq|]. exists data. reflexivity.
Qed.

(** X10. One attempt of the fetch issues exactly one request, to the URL of
    the base, and changes neither the cache nor the clock. An entry it
    returns without error came with status 200, is stamped with the
    current time and has rate 1 at the base; with an error the entry is the
    zero value; and any status other than 200 is an error that carries the
    status, whatever the body. *)
Theorem fetchRatesOnce_outcome (base : string) (w w' : world)
        (e : rateEntry) (err : option error) :
  fetchRatesOnce base w = Some ((e, err), w') ->
  requested w' = requested w ++ [exchangeURL base]
  /\ rateCache w' = rateCache w
  /\ clock w' = clock w
  /\ (err = None ->
      FetchedAt e = clock w /\ Rates e !! ToLower base = Some 1%Q
      /\ exists data,
           remote w (length (requested w)) (exchangeURL base) = Responds 200 (inl data))
  /\ (err <> None -> e = zeroRateEntry)
  /\ (forall status body,
        remote w (length (requested w)) (exchangeURL base) = Responds status body ->
        status <> 200 ->
        e = zeroRateEntry /\ err = Some (StatusError status)).
Proof.
  intros H. destruct (fetchRatesOnce_cases _ _ _ _ _ H) as [-> Hres]. simpl.
  split; [reflexivity|]. split; [reflexivity|]. split; [reflexivity|].
  split; [intros ->; exact Hres|].
  split; [destruct err; [intros _; exact Hres|congruence]|].
  intros status body Hreply Hstatus.
  unfold fetchRatesOnce, bind, httpGet in H. simpl in H. rewrite Hreply in H.
  apply Z.eqb_neq in Hstatus. rewrite Hstatus in H. simpl in H.
  injection H as <- <-. auto.
Qed.

(** The two attempts of [fetchRates], taken apart. *)
Lemma fetchRates_cases (base : string) (w w' : world)
      (e : rateEntry) (err : option error) :
  fetchRates base w = Some ((e, err), w') ->
  let url := exchangeURL base in
  rateCache w' = rateCache w
  /\ remote w' = remote w
  /\ ((err = None /\ requested w' = requested w ++ [url] /\ clock w' = clock w)
      \/ (err = None /\ requested w' = requested w ++ [url; url]
          /\ clock w' = clock w + 200 * millisecond)
      \/ (err <> None /\ e = zeroRateEntry
          /\ requested w' = requested w ++ [url; url]
          /\ clock w' = clock w + 600 * millisecond))
  /\ (err = None -> FetchedAt e = clock w' /\ Rates e !! ToLower base = Some 1%Q).
Proof.
  intros H url. unfold fetchRates in H. cbn [fetchAttempts] in H.
  unfold bind at 1 in H.
  destruct (fetchRatesOnce base w) as [[[e1 [err1|]] w1]|] eqn:E1;
    [|simpl in H|discriminate].
  - destruct (fetchRatesOnce_cases _ _ _ _ _ E1) as [-> _].
    cbn [snd fst] in H. unfold bind at 1, timeSleep at 1 in H.
    unfold bind at 1 in H.
    match type of H with
    | context [fetchRatesOnce base ?w2] =>
        destruct (fetchRatesOnce base w2) as [[[e2 [err2|]] w3]|] eqn:E2
    end; [|simpl in H|discriminate].
    + destruct (fetchRatesOnce_cases _ _ _ _ _ E2) as [-> _].
      cbn [snd fst] in H. unfold bind, timeSleep, ret in H.
      injection H as <- <- <-. simpl.
      split; [reflexivity|]. split; [reflexivity|].
      split; [|intros; discriminate].
      right. right. split; [discriminate|]. split; [reflexivity|].
      split; [rewrite <- app_assoc; reflexivity|].
      unfold millisecond. lia.
    + destruct (fetchRatesOnce_cases _ _ _ _ _ E2) as [-> (Hat & Hrate & _)].
      unfold ret in H. injection H as <- <- <-. simpl in *.
      split; [reflexivity|]. split; [reflexivity|].
      split; [|intros _; split; [exact Hat|exact Hrate]].
      right. left. split; [reflexivity|].
      split; [rewrite <- app_assoc; reflexivity|].
      unfold millisecond. lia.
  - destruct (fetchRatesOnce_cases _ _ _ _ _ E1) as [-> (Hat & Hrate & _)].
    unfold ret in H. injection H as <- <- <-. simpl in *.
    split; [reflexivity|]. split; [reflexivity|].
    split; [|intros _; split; [exact Hat|exact Hrate]].
    left. auto.
Qed.

(** X11. A fetch makes one request when the first attempt succeeds and two
    otherwise, all to the URL of the base, and leaves the cache alone. It
    sleeps 200 ms before the second attempt and, when that fails too,
    400 ms more before it returns the error with the zero entry. An entry
    it returns without error is stamped with the time of the return and has
    rate 1 at the base. *)
Theorem fetchRates_outcome (base : string) (w w' : world)
        (e : rateEntry) (err : option error) :
  fetchRates base w = Some ((e, err), w') ->
  rateCache w' = rateCache w
  /\ (exists n, (1 <= n <= 2)%nat
       /\ requested w' = requested w ++ replicate n (exchangeURL base)
       /\ match err with
          | None => clock w' = clock w + Z.of_nat (n - 1) * 200 * millisecond
                    /\ FetchedAt e = clock w'
                    /\ Rates e !! ToLower base = Some 1%Q
          | Some _ => n = 2%nat /\ e = zeroRateEntry
                      /\ clock w' = clock w + 600 * millisecond
          end).
Proof.
  intros H. destruct (fetchRates_cases _ _ _ _ _ H) as (Hc & _ & Hcases & Hok).
  split; [exact Hc|].
  destruct Hcases as [(-> & Hreq & Hclock)|[(-> & Hreq & Hclock)|(Herr & -> & Hreq & Hclock)]].
  - exists 1%nat. split; [lia|]. split; [exact Hreq|].
    destruct (Hok eq_refl) as [Hat Hrate]. simpl. split; [lia|]. auto.
  - exists 2%nat. split; [lia|]. split; [exact Hreq|].
    destruct (Hok eq_refl) as [Hat Hrate]. simpl. split; [lia|]. auto.
  - exists 2%nat. split; [lia|]. split; [exact Hreq|].
    destruct err; [auto|congruence].
Qed.

(** [getRates], taken apart: a hit, or a fetch and what follows it. *)
Lemma getRates_cases (base : string) (w w' : world)
      (e : rateEntry) (err : option error) :
  getRates base w = Some ((e, err), w') ->
  (freshEntry (clock w) (rateCache w !! base) = Some e /\ err = None /\ w' = w)
  \/ (freshEntry (clock w) (rateCache w !! base) = None
      /\ exists e1 err1 w1,
           fetchRates base w = Some ((e1, err1), w1)
           /\ match err1 with
              | None =>
                  e = e1 /\ err = None
                  /\ w' = setRateCache w1 (<[base := e1]> (rateCache w))
              | Some x =>
                  w' = w1
                  /\ match rateCache w !! base with
                     | Some stale => e = stale /\ err = None
                     | None => e = zeroRateEntry /\ err = Some x
                     end
              end).
Proof.
  intros H.
  destruct (freshEntry (clock w) (rateCache w !! base)) as [hit|] eqn:Ehit.
  - left. unfold getRates, bind, timeNow, cacheLookup in H.
    rewrite Ehit in H. unfold ret in H. injection H as <- <- <-. auto.
  - right. split; [reflexivity|].
    destruct (fetchRates base w) as [[[e1 err1] w1]|] eqn:Ef.
    + rewrite (getRates_refresh _ _ _ _ Ehit Ef) in H. simpl in H.
      exists e1, err1, w1. split; [reflexivity|].
      destruct err1 as [x|].
      * destruct (rateCache w !! base); injection H as <- <- <-; auto.
      * injection H as <- <- <-. auto.
    + unfold getRates, bind, timeNow, cacheLookup in H.
      rewrite Ehit, Ef in H. discriminate.
Qed.

Lemma freshEntry_Some (now : Z) (cached : option rateEntry) (e : rateEntry) :
  freshEntry now cached = Some e ->
  cached = Some e /\ now - FetchedAt e < rateCacheTTL.
Proof.
  unfold freshEntry. destruct cached as [entry|]; [|discriminate].
  destruct (timeSub now (FetchedAt entry) <? rateCacheTTL) eqn:E; [|discriminate].
  intros [= <-]. split; [reflexivity|]. apply timeSub_fresh, E.
Qed.

Lemma freshEntry_None (now : Z) (cached : option rateEntry) :
  freshEntry now cached = None ->
  cached = None
  \/ exists stale, cached = Some stale /\ rateCacheTTL <= now - FetchedAt stale.
Proof.
  unfold freshEntry. destruct cached as [entry|]; [|auto].
  destruct (timeSub now (FetchedAt entry) <? rateCacheTTL) eqn:E; [discriminate|].
  intros _. right. exists entry. split; [reflexivity|].
  destruct (Z_lt_le_dec (now - FetchedAt entry) rateCacheTTL) as [Hlt|Hle];
    [|exact Hle].
  apply timeSub_fresh in Hlt. congruence.
Qed.

(** X12. [getRates] touches the cache at the base it is asked for and
    nowhere else, never moves the clock back, and whenever it returns a
    table without error that table is what the cache holds for the base
    afterwards. *)
Theorem getRates_cache_frame (base : string) (w w' : world)
        (e : rateEntry) (err : option error) :
  getRates base w = Some ((e, err), w') ->
  (forall other, other <> base -> rateCache w' !! other = rateCache w !! other)
  /\ remote w' = remote w
  /\ clock w <= clock w'
  /\ (err = None -> rateCache w' !! base = Some e).
Proof.
  intros H.
  destruct (getRates_cases _ _ _ _ _ H)
    as [(Hhit & -> & ->)|(_ & e1 & err1 & w1 & Hf & Hrest)].
  - apply freshEntry_Some in Hhit as [Hhit _]. repeat split; auto. lia.
  - destruct (fetchRates_cases _ _ _ _ _ Hf) as (Hc & Hr & Hcases & _).
    assert (Hclock : clock w <= clock w1)
      by (unfold millisecond in Hcases;
          destruct Hcases as [(_ & _ & ->)|[(_ & _ & ->)|(_ & _ & _ & ->)]]; lia).
    destruct err1 as [x|].
    + destruct Hrest as [-> Hrest]. rewrite Hc.
      split; [reflexivity|]. split; [exact Hr|]. split; [exact Hclock|].
      destruct (rateCache w !! base) as [stale|]; destruct Hrest as [-> ->];
        [reflexivity|discriminate].
    + destruct Hrest as (-> & -> & ->). simpl.
      split; [intros other Hne; apply lookup_insert_ne; congruence|].
      split; [exact Hr|]. split; [exact Hclock|].
      intros _. apply lookup_insert_eq.
Qed.

(** X13. [getRates] returns an error only when the cache has nothing for
    the base: then both attempts of the fetch were made and failed, 600 ms
    were slept, the entry returned is the zero value and the cache is as it
    was. *)
Theorem getRates_error_uncached (base : string) (w w' : world)
        (e : rateEntry) (x : error) :
  getRates base w = Some ((e, Some x), w') ->
  rateCache w !! base = None
  /\ e = zeroRateEntry
  /\ rateCache w' = rateCache w
  /\ requested w' = requested w ++ [exchangeURL base; exchangeURL base]
  /\ clock w' = clock w + 600 * millisecond.
Proof.
  intros H.
  destruct (getRates_cases _ _ _ _ _ H)
    as [(_ & Habs & _)|(_ & e1 & err1 & w1 & Hf & Hrest)]; [discriminate|].
  destruct (fetchRates_cases _ _ _ _ _ Hf) as (Hc & _ & Hcases & _).
  destruct err1 as [x1|]; [|destruct Hrest as (_ & Habs & _); discriminate].
  destruct Hrest as [-> Hrest].
  destruct (rateCache w !! base) as [stale|]; destruct Hrest as [-> Herr];
    [discriminate|].
  split; [reflexivity|]. split; [reflexivity|]. split; [exact Hc|].
  destruct Hcases as [(Habs & _)|[(Habs & _)|(_ & _ & Hreq & Hclock)]];
    try discriminate. auto.
Qed.

Lemma rateCacheTTL_positive : 0 < rateCacheTTL.
Proof. reflexivity. Qed.

(** X14. After [getRates] has returned a table without error, asking again
    at once returns the same table and leaves the world alone, so no
    request is made, unless the table was a stale one served because the
    refresh failed. *)
Theorem getRates_again (base : string) (w w' : world) (e : rateEntry) :
  getRates base w = Some ((e, None), w') ->
  getRates base w' = Some ((e, None), w')
  \/ (rateCache w !! base = Some e
      /\ rateCacheTTL <= clock w - FetchedAt e
      /\ exists e1 x, fetchRates base w = Some ((e1, Some x), w')).
Proof.
  intros H.
  destruct (getRates_cases _ _ _ _ _ H)
    as [(_ & _ & ->)|(Hmiss & e1 & err1 & w1 & Hf & Hrest)]; [left; exact H|].
  destruct err1 as [x|].
  - right. destruct Hrest as [-> Hrest].
    destruct (freshEntry_None _ _ Hmiss) as [Hnone|(stale & Hstale & Hold)].
    + rewrite Hnone in Hrest. destruct Hrest as [_ Habs]. discriminate.
    + rewrite Hstale in Hrest. destruct Hrest as [-> _]. eauto.
  - left. destruct Hrest as (-> & _ & ->).
    destruct (fetchRates_cases _ _ _ _ _ Hf) as (_ & _ & _ & Hok).
    destruct (Hok eq_refl) as [Hat _].
    unfold getRates, bind, timeNow, cacheLookup. simpl.
    rewrite lookup_insert_eq, freshEntry_fresh; [reflexivity|].
    rewrite Hat. pose proof rateCacheTTL_positive. lia.
Qed.

(** X15. When every cached table has rate 1 at the base it is cached
    under, the same holds after [getRates], and the table [getRates]
    returns without error has rate 1 at the base asked for. *)
Theorem getRates_keeps_base_rates (base : string) (w w' : world)
        (e : rateEntry) (err : option error) :
  cacheHasBaseRates (rateCache w) ->
  getRates base w = Some ((e, err), w') ->
  cacheHasBaseRates (rateCache w')
  /\ (err = None -> Rates e !! ToLower base = Some 1%Q).
Proof.
  intros Hinv H.
  destruct (getRates_cases _ _ _ _ _ H)
    as [(Hhit & -> & ->)|(_ & e1 & err1 & w1 & Hf & Hrest)].
  - apply freshEntry_Some in Hhit as [Hhit _]. split; [exact Hinv|].
    intros _. exact (Hinv _ _ Hhit).
  - destruct (fetchRates_cases _ _ _ _ _ Hf) as (Hc & _ & _ & Hok).
    destruct err1 as [x|].
    + destruct Hrest as [-> Hrest]. rewrite Hc. split; [exact Hinv|].
      destruct (rateCache w !! base) as [stale|] eqn:Es;
        destruct Hrest as [-> ->]; [|discriminate].
      intros _. exact (Hinv _ _ Es).
    + destruct Hrest as (-> & -> & ->). destruct (Hok eq_refl) as [_ Hrate].
      simpl. split; [|intros _; exact Hrate].
      intros k entry. rewrite lookup_insert.
      case_decide as Hk; [intros [= <-]; subst k; exact Hrate|apply Hinv].
Qed.

End RateSourceFacts.

(** ** More on the currency normaliser *)

Section NormaliserFacts.

Context {json : Unmarshal}.

(** X16. When [getRates] returns an error, the conversion returns it with
    no bills and the empty date, whatever the bills are: bills in the base
    currency, which need no rate, are not converted either. *)
Theorem convert_without_rates (base : string) (bills : list Bill)
        (w w' : world) (e : rateEntry) (x : error) :
  getRates (ToLower base) w = Some ((e, Some x), w') ->
  convertBillsToBase base bills w = Some (([], EmptyString, Some x), w').
Proof.
  intros H.
  destruct (getRates_cases _ _ _ _ _ H)
    as [(_ & Habs & _)|(_ & e1 & err1 & w1 & Hf & Hrest)]; [discriminate|].
  assert (He : e = zeroRateEntry).
  { destruct err1 as [x1|]; [|destruct Hrest as (_ & Habs & _); discriminate].
    destruct Hrest as [_ Hrest].
    destruct (rateCache w !! ToLower base); destruct Hrest as [He Herr];
      [discriminate|exact He]. }
  subst e. unfold convertBillsToBase, bind. rewrite H. reflexivity.
Qed.

Lemma convertLoop_all_ok (base : string) (rates : rateEntry) (bills : list Bill) :
  Forall (fun b => ~ missingRate base rates b) bills ->
  forall acc, exists conv,
    convertLoop base rates acc bills = (acc ++ conv, None)
    /\ length conv = length bills.
Proof.
  induction 1 as [|b rest Hb _ IH]; intros acc.
  - exists []. rewrite app_nil_r. auto.
  - simpl. destruct (convertBill_cases base rates b)
      as [[_ [[_ E]|(_ & rate & _ & _ & E)]]|[Hm _]]; [| |contradiction];
      rewrite E;
      match goal with
      | |- context [convertLoop _ _ (acc ++ [?b']) _] =>
          destruct (IH (acc ++ [b'])) as (conv & -> & Hlen);
          exists (b' :: conv); rewrite <- app_assoc; simpl; auto
      end.
Qed.



End NormaliserFacts.

(** ** The request handler *)

Section HandlerFacts.

Context {json : Unmarshal}.

Variable unmarshalRequest : string -> option CalculateRequest.

Variable range : gmap Z Q -> list (Z * Q).

Lemma upperChar_idempotent (c : ascii) : upperChar (upperChar c) = upperChar c.
Proof. destruct c as [[] [] [] [] [] [] [] []]; reflexivity. Qed.

Lemma ToUpper_idempotent (s : string) : ToUpper (ToUpper s) = ToUpper s.
Proof.
  unfold ToUpper. induction s as [|c s IH]; simpl; [reflexivity|].
  rewrite upperChar_idempotent, IH. reflexivity.
Qed.




End HandlerFacts.

(** ** The properties at the sample data *)

Lemma map_to_list_visitsAll : visitsAll map_to_list.
Proof. intros m. reflexivity. Qed.


Lemma no_participants_no_plan_witness :
  calculate map_to_list testPeople [baseBill 90 1 []] = Some []
  /\ forall id amt,
       balances testPeople [baseBill 90 1 []] !! id = Some amt -> amt = 0%Q.
Proof.
  apply (no_participants_no_plan map_to_list testPeople [baseBill 90 1 []]).
  - intros m. reflexivity.
  - repeat constructor.
Defined.

Lemma parse_keeps_remote_rates_witness :
  exists raw rateRaw rates,
    unmarshalRaw (Unmarshal := stubJSON) "ratesDocument" = Decoded raw
    /\ raw !! ToLower "TWD" = Some rateRaw
    /\ unmarshalRates (Unmarshal := stubJSON) rateRaw = Decoded rates
    /\ (forall cur, cur <> ToLower "TWD" -> Rates testTable !! cur = rates !! cur)
    /\ FetchedAt testTable = 0
    /\ (raw !! "date"%string = None -> Date testTable = EmptyString).
Proof.
  apply (parse_keeps_remote_rates (json := stubJSON) "TWD" "ratesDocument" testTable).
  vm_compute. reflexivity.
Defined.

Lemma fetchRatesOnce_outcome_witness :
  requested cachedWorld = requested emptyOnline ++ [exchangeURL "twd"]
  /\ FetchedAt fetchedEntry = clock emptyOnline.
Proof.
  destruct (fetchRatesOnce_outcome (json := stubJSON) "twd" emptyOnline
              (setRequested emptyOnline [exchangeURL "twd"]) fetchedEntry None)
    as (Hreq & _ & _ & Hok & _).
  - vm_compute. reflexivity.
  - split; [exact Hreq|]. apply (Hok eq_refl).
Defined.

Lemma fetchRates_outcome_witness :
  rateCache failedWorld = rateCache emptyOffline
  /\ exists n, (1 <= n <= 2)%nat
       /\ requested failedWorld
          = requested emptyOffline ++ replicate n (exchangeURL "twd")
       /\ n = 2%nat /\ zeroRateEntry = zeroRateEntry
       /\ clock failedWorld = clock emptyOffline + 600 * millisecond.
Proof.
  apply (fetchRates_outcome (json := stubJSON) "twd" emptyOffline failedWorld
           zeroRateEntry (Some (TransportError "offline"))).
  vm_compute. reflexivity.
Defined.

Example getRates_fetches_and_caches :
  getRates (json := stubJSON) "twd" emptyOnline = Some ((fetchedEntry, None), cachedWorld).
Proof. vm_compute. reflexivity. Qed.

Example getRates_fails_offline :
  getRates (json := stubJSON) "twd" emptyOffline
  = Some ((zeroRateEntry, Some (TransportError "offline")), failedWorld).
Proof. vm_compute. reflexivity. Qed.

Lemma getRates_cache_frame_witness :
  rateCache cachedWorld !! "twd"%string = Some fetchedEntry.
Proof.
  destruct (getRates_cache_frame (json := stubJSON) "twd" emptyOnline cachedWorld
              fetchedEntry None) as (_ & _ & _ & Hcached).
  - vm_compute. reflexivity.
  - apply Hcached. reflexivity.
Defined.

Lemma getRates_error_uncached_witness :
  rateCache emptyOffline !! "twd"%string = None
  /\ zeroRateEntry = zeroRateEntry
  /\ rateCache failedWorld = rateCache emptyOffline
  /\ requested failedWorld
     = requested emptyOffline ++ [exchangeURL "twd"; exchangeURL "twd"]
  /\ clock failedWorld = clock emptyOffline + 600 * millisecond.
Proof.
  apply (getRates_error_uncached (json := stubJSON) "twd" emptyOffline failedWorld
           zeroRateEntry (TransportError "offline")).
  vm_compute. reflexivity.
Defined.

Lemma getRates_again_witness :
  getRates (json := stubJSON) "twd" cachedWorld = Some ((fetchedEntry, None), cachedWorld)
  \/ (rateCache emptyOnline !! "twd"%string = Some fetchedEntry
      /\ rateCacheTTL <= clock emptyOnline - FetchedAt fetchedEntry
      /\ exists e1 x,
           fetchRates (json := stubJSON) "twd" emptyOnline
           = Some ((e1, Some x), cachedWorld)).
Proof.
  apply (getRates_again (json := stubJSON) "twd" emptyOnline cachedWorld fetchedEntry).
  vm_compute. reflexivity.
Defined.

Lemma getRates_keeps_base_rates_witness :
  cacheHasBaseRates (rateCache cachedWorld)
  /\ (@None error = None -> Rates fetchedEntry !! ToLower "twd" = Some 1%Q).
Proof.
  apply (getRates_keeps_base_rates (json := stubJSON) "twd" emptyOnline cachedWorld
           fetchedEntry None).
  - intros base entry H. vm_compute in H. discriminate.
  - vm_compute. reflexivity.
Defined.

Lemma convert_without_rates_witness :
  convertBillsToBase (json := stubJSON) "TWD" [lunch] emptyOffline
  = Some (([], EmptyString, Some (TransportError "offline")), failedWorld).
Proof.
  apply (convert_without_rates (json := stubJSON) "TWD" [lunch] emptyOffline
           failedWorld zeroRateEntry (TransportError "offline")).
  vm_compute. reflexivity.
Defined.



